(** * Parameter-space noise: adaptive controller and perturbation hooks

    A shallow embedding of [machin/frame/noise/param_space_noise.py]:
    the class [AdaptiveParamNoise], the two closures built by
    [_gen_perturb_hook] and the session function [perturb_model].

    Python floats are IEEE binary64 numbers and are modelled by Rocq's
    primitive floats. Python objects that the code mutates in place live in
    an explicit world: tensors are storage cells, [clone()] allocates a new
    cell, [+=] writes a cell and [set_] redirects a parameter to the cell of
    its argument, so that aliasing is visible. An exception leaves the world
    as the code had mutated it when the exception was raised. *)

From Stdlib Require Import Floats.
From stdpp Require Import gmap strings list functions.

Set Warnings "-inexact-float,-clear-no-such-hyp".

(** ** Exceptions and the state-and-exception monad *)

(** The Python exceptions the modelled statements can raise:
    float division by zero, a missing dictionary key, a hook called with
    the wrong number of arguments, and the error torch raises when an
    in-place addition rejects its operand. *)
Inductive exn : Type :=
  | ZeroDivisionError
  | KeyError (key : string)
  | TypeError
  | RuntimeError.

(** Result of a statement on a state of type [S]: a value and the new
    state, or an exception and the state at the raise. *)
Inductive outcome (S A : Type) : Type :=
  | Ok (a : A) (s : S)
  | Raise (e : exn) (s : S).
Arguments Ok {S A} a s.
Arguments Raise {S A} e s.

Definition M (S A : Type) : Type := S -> outcome S A.

Definition ret {S A} (a : A) : M S A := fun s => Ok a s.

Definition raise {S A} (e : exn) : M S A := fun s => Raise e s.

Definition bind {S A B} (m : M S A) (k : A -> M S B) : M S B :=
  fun s => match m s with
           | Ok a s' => k a s'
           | Raise e s' => Raise e s'
           end.

Definition gets {S A} (f : S -> A) : M S A := fun s => Ok (f s) s.

Definition modify {S} (f : S -> S) : M S unit := fun s => Ok tt (f s).

Declare Scope py_scope.
Delimit Scope py_scope with py.
Notation "x <- m ;; k" := (bind m (fun x => k))
  (at level 100, m at next level, right associativity) : py_scope.
Notation "m ;; k" := (bind m (fun _ => k))
  (at level 100, right associativity) : py_scope.
Open Scope py_scope.

(** [for x in l: body(x)] *)
Fixpoint for_each {S A} (l : list A) (body : A -> M S unit) : M S unit :=
  match l with
  | [] => ret tt
  | x :: l' => body x ;; for_each l' body
  end.

(** Final state of an outcome, whether it returned or raised. *)
Definition final {S A} (o : outcome S A) : S :=
  match o with Ok _ s => s | Raise _ s => s end.

Definition raises {S A} (o : outcome S A) : bool :=
  match o with Ok _ _ => false | Raise _ _ => true end.

(** ** Python float arithmetic *)

(** [a / b] on Python floats: [ZeroDivisionError] when [b == 0.0],
    the IEEE quotient otherwise. *)
Definition float_truediv (a b : float) : exn + float :=
  if PrimFloat.eqb b 0%float then inl ZeroDivisionError
  else inr (a / b)%float.

(** [a > b] on Python floats. *)
Definition float_gt (a b : float) : bool := PrimFloat.ltb b a.

(** [a <= b] on Python floats. *)
Definition float_le (a b : float) : bool := PrimFloat.leb a b.

(** ** class AdaptiveParamNoise *)

Record AdaptiveParamNoise : Type := mkAdaptiveParamNoise {
  initial_stddev : float;
  desired_action_stddev : float;
  adoption_coefficient : float;
  current_stddev : float
}.

Definition default_initial_stddev : float := 0.1%float.
Definition default_desired_action_stddev : float := 0.1%float.
Definition default_adoption_coefficient : float := 1.01%float.

(** [AdaptiveParamNoise.__init__]: four assignments, no check. The result
    is either the constructed object or the exception raised. *)
Definition AdaptiveParamNoise_init
    (initial desired coefficient : float) : exn + AdaptiveParamNoise :=
  inr {| initial_stddev := initial;
         desired_action_stddev := desired;
         adoption_coefficient := coefficient;
         current_stddev := initial |}.

Definition set_current_stddev (v : float) (s : AdaptiveParamNoise)
    : AdaptiveParamNoise :=
  {| initial_stddev := initial_stddev s;
     desired_action_stddev := desired_action_stddev s;
     adoption_coefficient := adoption_coefficient s;
     current_stddev := v |}.

(** [AdaptiveParamNoise.adapt] *)
Definition adapt (distance : float) : M AdaptiveParamNoise unit :=
  fun self =>
    if float_gt distance (desired_action_stddev self) then
      match float_truediv (current_stddev self) (adoption_coefficient self) with
      | inl e => Raise e self
      | inr v => Ok tt (set_current_stddev v self)
      end
    else
      Ok tt (set_current_stddev
               (current_stddev self * adoption_coefficient self)%float self).

(** [AdaptiveParamNoise.get_dev] *)
Definition get_dev (self : AdaptiveParamNoise) : float := current_stddev self.

(** ** The collaborators: torch tensors and the arguments of [perturb_model] *)

(** What the code uses of torch tensors. The tensor library is not part of
    the repository, so its operations are the fields of an interface:
    [tensor_iadd a b] is the content of [a] after [a += b], or [None] when
    torch rejects the operand (the shape or the device of [b] does not fit
    [a]) and raises; [tensor_mul a c] is [a * c] for a Python float [c]. *)
Class Torch : Type := {
  tensor : Type;
  shape : Type;
  device : Type;
  tensor_shape : tensor -> shape;
  tensor_device : tensor -> device;
  tensor_iadd : tensor -> tensor -> option tensor;
  tensor_mul : tensor -> float -> tensor
}.

(** The arguments of [perturb_model] that are callables, and the model's
    [forward]. A noise source is random: it is a function of the state
    [rng] of the random source, which it advances.
    - [forward live x]: output of the model on input [x] when its named
      parameters hold the values [live];
    - [distance_func a b];
    - [noise_generator g shape device]: the sample
      [noise_generator(shape, *args, **kwargs)(device)];
    - [noise_generate_function]: [None], or the function called as
      [noise_generate_function(shape, device, std_dev)]. *)
Class PerturbArgs `{Torch} : Type := {
  rng : Type;
  input : Type;
  forward : (string -> tensor) -> input -> tensor;
  distance_func : tensor -> tensor -> float;
  noise_generator : rng -> shape -> device -> tensor * rng;
  noise_generate_function :
    option (rng -> shape -> device -> float -> tensor * rng)
}.

(** The three closures that [perturb_model] hands to the model or keeps. *)
Inductive hook : Type :=
  | PerturbPreHook
  | PerturbPostHook
  | PerturbAdjustHook.

(** A [RemovableHandle]: the registry it belongs to and its key there. *)
Inductive handle : Type :=
  | ForwardPreHandle (id : nat)
  | ForwardHandle (id : nat).

#[export] Instance handle_eq_dec : EqDecision handle.
Proof. solve_decision. Defined.

(** The two [logger.info] lines of [perturb_adjust_hook]. *)
Inductive log_entry : Type :=
  | LogOutputDistance (dist : float)
  | LogParamNoiseStddev (stddev : float).

(** Storage cells are numbered. *)
Abbreviation addr := nat (only parsing).

Section Embedding.
Context `{PerturbArgs}.

(** The mutable world of one session.

    The module: [named_parameters] lists the names that
    [module.named_parameters()] yields, each with the answer of
    [t.is_tensor] on its value; the tensor of parameter [n] reads and writes
    the storage cell [param_storage n]; [storage] is the content of every
    cell and [next_storage] the first cell not yet allocated. The hook
    registries of the module are ordered and keyed by handle ids.

    The closures: [org_params] and [noisy_params] map a parameter name to
    the cell of its snapshot tensor; [tmp_action] holds clones of model
    outputs, which nothing mutates, by value. *)
Record World : Type := mkWorld {
  named_parameters : list (string * bool);
  param_storage : string -> addr;
  storage : addr -> tensor;
  next_storage : addr;
  forward_pre_hooks : list (nat * hook);
  forward_hooks : list (nat * hook);
  next_handle : nat;
  perturb_switch : bool;
  reset_switch : bool;
  org_params : gmap string addr;
  noisy_params : gmap string addr;
  tmp_action : gmap string tensor;
  param_noise_spec : AdaptiveParamNoise;
  reset_hooks : list hook;
  hook_handles : list handle;
  rng_state : rng;
  logger : list log_entry
}.

Definition set_param_storage (f : string -> addr) (w : World) : World :=
  mkWorld (named_parameters w) f (storage w) (next_storage w)
    (forward_pre_hooks w) (forward_hooks w) (next_handle w)
    (perturb_switch w) (reset_switch w) (org_params w) (noisy_params w)
    (tmp_action w) (param_noise_spec w) (reset_hooks w) (hook_handles w)
    (rng_state w) (logger w).

Definition set_storage (h : addr -> tensor) (w : World) : World :=
  mkWorld (named_parameters w) (param_storage w) h (next_storage w)
    (forward_pre_hooks w) (forward_hooks w) (next_handle w)
    (perturb_switch w) (reset_switch w) (org_params w) (noisy_params w)
    (tmp_action w) (param_noise_spec w) (reset_hooks w) (hook_handles w)
    (rng_state w) (logger w).

Definition set_next_storage (a : addr) (w : World) : World :=
  mkWorld (named_parameters w) (param_storage w) (storage w) a
    (forward_pre_hooks w) (forward_hooks w) (next_handle w)
    (perturb_switch w) (reset_switch w) (org_params w) (noisy_params w)
    (tmp_action w) (param_noise_spec w) (reset_hooks w) (hook_handles w)
    (rng_state w) (logger w).

Definition set_forward_pre_hooks (l : list (nat * hook)) (w : World) : World :=
  mkWorld (named_parameters w) (param_storage w) (storage w) (next_storage w)
    l (forward_hooks w) (next_handle w)
    (perturb_switch w) (reset_switch w) (org_params w) (noisy_params w)
    (tmp_action w) (param_noise_spec w) (reset_hooks w) (hook_handles w)
    (rng_state w) (logger w).

Definition set_forward_hooks (l : list (nat * hook)) (w : World) : World :=
  mkWorld (named_parameters w) (param_storage w) (storage w) (next_storage w)
    (forward_pre_hooks w) l (next_handle w)
    (perturb_switch w) (reset_switch w) (org_params w) (noisy_params w)
    (tmp_action w) (param_noise_spec w) (reset_hooks w) (hook_handles w)
    (rng_state w) (logger w).

Definition set_next_handle (i : nat) (w : World) : World :=
  mkWorld (named_parameters w) (param_storage w) (storage w) (next_storage w)
    (forward_pre_hooks w) (forward_hooks w) i
    (perturb_switch w) (reset_switch w) (org_params w) (noisy_params w)
    (tmp_action w) (param_noise_spec w) (reset_hooks w) (hook_handles w)
    (rng_state w) (logger w).

Definition set_perturb_switch (b : bool) (w : World) : World :=
  mkWorld (named_parameters w) (param_storage w) (storage w) (next_storage w)
    (forward_pre_hooks w) (forward_hooks w) (next_handle w)
    b (reset_switch w) (org_params w) (noisy_params w)
    (tmp_action w) (param_noise_spec w) (reset_hooks w) (hook_handles w)
    (rng_state w) (logger w).

Definition set_reset_switch (b : bool) (w : World) : World :=
  mkWorld (named_parameters w) (param_storage w) (storage w) (next_storage w)
    (forward_pre_hooks w) (forward_hooks w) (next_handle w)
    (perturb_switch w) b (org_params w) (noisy_params w)
    (tmp_action w) (param_noise_spec w) (reset_hooks w) (hook_handles w)
    (rng_state w) (logger w).

Definition set_org_params (d : gmap string addr) (w : World) : World :=
  mkWorld (named_parameters w) (param_storage w) (storage w) (next_storage w)
    (forward_pre_hooks w) (forward_hooks w) (next_handle w)
    (perturb_switch w) (reset_switch w) d (noisy_params w)
    (tmp_action w) (param_noise_spec w) (reset_hooks w) (hook_handles w)
    (rng_state w) (logger w).

Definition set_noisy_params (d : gmap string addr) (w : World) : World :=
  mkWorld (named_parameters w) (param_storage w) (storage w) (next_storage w)
    (forward_pre_hooks w) (forward_hooks w) (next_handle w)
    (perturb_switch w) (reset_switch w) (org_params w) d
    (tmp_action w) (param_noise_spec w) (reset_hooks w) (hook_handles w)
    (rng_state w) (logger w).

Definition set_tmp_action (d : gmap string tensor) (w : World) : World :=
  mkWorld (named_parameters w) (param_storage w) (storage w) (next_storage w)
    (forward_pre_hooks w) (forward_hooks w) (next_handle w)
    (perturb_switch w) (reset_switch w) (org_params w) (noisy_params w)
    d (param_noise_spec w) (reset_hooks w) (hook_handles w)
    (rng_state w) (logger w).

Definition set_param_noise_spec (s : AdaptiveParamNoise) (w : World) : World :=
  mkWorld (named_parameters w) (param_storage w) (storage w) (next_storage w)
    (forward_pre_hooks w) (forward_hooks w) (next_handle w)
    (perturb_switch w) (reset_switch w) (org_params w) (noisy_params w)
    (tmp_action w) s (reset_hooks w) (hook_handles w)
    (rng_state w) (logger w).

Definition set_reset_hooks (l : list hook) (w : World) : World :=
  mkWorld (named_parameters w) (param_storage w) (storage w) (next_storage w)
    (forward_pre_hooks w) (forward_hooks w) (next_handle w)
    (perturb_switch w) (reset_switch w) (org_params w) (noisy_params w)
    (tmp_action w) (param_noise_spec w) l (hook_handles w)
    (rng_state w) (logger w).

Definition set_hook_handles (l : list handle) (w : World) : World :=
  mkWorld (named_parameters w) (param_storage w) (storage w) (next_storage w)
    (forward_pre_hooks w) (forward_hooks w) (next_handle w)
    (perturb_switch w) (reset_switch w) (org_params w) (noisy_params w)
    (tmp_action w) (param_noise_spec w) (reset_hooks w) l
    (rng_state w) (logger w).

Definition set_rng_state (g : rng) (w : World) : World :=
  mkWorld (named_parameters w) (param_storage w) (storage w) (next_storage w)
    (forward_pre_hooks w) (forward_hooks w) (next_handle w)
    (perturb_switch w) (reset_switch w) (org_params w) (noisy_params w)
    (tmp_action w) (param_noise_spec w) (reset_hooks w) (hook_handles w)
    g (logger w).

Definition set_logger (l : list log_entry) (w : World) : World :=
  mkWorld (named_parameters w) (param_storage w) (storage w) (next_storage w)
    (forward_pre_hooks w) (forward_hooks w) (next_handle w)
    (perturb_switch w) (reset_switch w) (org_params w) (noisy_params w)
    (tmp_action w) (param_noise_spec w) (reset_hooks w) (hook_handles w)
    (rng_state w) l.

(** The value a parameter holds: the content of the cell of its tensor. *)
Definition live (w : World) (n : string) : tensor :=
  storage w (param_storage w n).

(** The value a snapshot dictionary holds for a name, if any. *)
Definition snapshot (w : World) (d : gmap string addr) (n : string)
    : option tensor :=
  storage w <$> d !! n.

(** *** Primitive statements *)

(** [d[k]] *)
Definition getitem {V} (d : gmap string V) (k : string) : M World V :=
  match d !! k with
  | Some v => ret v
  | None => raise (KeyError k)
  end.

(** [bool(d)] for a dictionary *)
Definition nonempty {V} (d : gmap string V) : bool := bool_decide (d ≠ ∅).

(** [param_value.clone()] for the tensor of parameter [n]: a new cell with
    the same content. *)
Definition clone_param (n : string) : M World addr :=
  fun w =>
    let a := next_storage w in
    Ok a (set_next_storage (S a)
            (set_storage (<[a := live w n]> (storage w)) w)).

(** [param_value.set_(src)]: the tensor of [n] now uses the cell of [src]. *)
Definition set_ (n : string) (src : addr) : M World unit :=
  modify (fun w => set_param_storage (<[n := src]> (param_storage w)) w).

(** [param_value += x]: writes the cell in place, or raises. *)
Definition iadd_param (n : string) (x : tensor) : M World unit :=
  fun w =>
    match tensor_iadd (live w n) x with
    | Some r =>
        Ok tt (set_storage (<[param_storage w n := r]> (storage w)) w)
    | None => Raise RuntimeError w
    end.

(** Lifts a method of the controller to the world. *)
Definition on_param_noise_spec {A} (m : M AdaptiveParamNoise A) : M World A :=
  fun w =>
    match m (param_noise_spec w) with
    | Ok a s => Ok a (set_param_noise_spec s w)
    | Raise e s => Raise e (set_param_noise_spec s w)
    end.

(** [logger.info(...)] *)
Definition logger_info (e : log_entry) : M World unit :=
  modify (fun w => set_logger (logger w ++ [e]) w).

(** *** Noise generation, as [perturb_model] defines it *)

(** [param_noise_gen]: a sample of the generator scaled by the current
    standard deviation. *)
Definition param_noise_gen (sh : shape) (dev : device) : M World tensor :=
  fun w =>
    let '(x, g) := noise_generator (rng_state w) sh dev in
    Ok (tensor_mul x (get_dev (param_noise_spec w))) (set_rng_state g w).

(** [param_noise_custom_gen_wrapper] *)
Definition param_noise_custom_gen_wrapper
    (f : rng -> shape -> device -> float -> tensor * rng)
    (sh : shape) (dev : device) : M World tensor :=
  fun w =>
    let std_dev := get_dev (param_noise_spec w) in
    let '(x, g) := f (rng_state w) sh dev std_dev in
    Ok x (set_rng_state g w).

(** The generator handed to [_gen_perturb_hook]: the wrapper when
    [noise_generate_function is not None]. *)
Definition perturb_gen : shape -> device -> M World tensor :=
  match noise_generate_function with
  | Some f => param_noise_custom_gen_wrapper f
  | None => param_noise_gen
  end.

(** *** The closures of [_gen_perturb_hook] *)

Section GenPerturbHook.
Variable gen : shape -> device -> M World tensor.

(** Body of the loop that swaps a snapshot in:
    [if t.is_tensor(param_value): param_value.set_(d[param_name])],
    for the dictionary [d] read by [sel]. *)
Definition swap_in (sel : World -> gmap string addr) (p : string * bool)
    : M World unit :=
  if p.2 then
    d <- gets sel ;;
    src <- getitem d p.1 ;;
    set_ p.1 src
  else ret tt.

(** Body of the loop that draws noise. ([detach()] and [no_grad()] only
    concern the gradient graph and have no counterpart here.) *)
Definition draw_noise (p : string * bool) : M World unit :=
  if p.2 then
    c <- clone_param p.1 ;;
    modify (fun w => set_org_params (<[p.1 := c]> (org_params w)) w) ;;
    v <- gets (fun w => live w p.1) ;;
    x <- gen (tensor_shape v) (tensor_device v) ;;
    iadd_param p.1 x ;;
    c' <- clone_param p.1 ;;
    modify (fun w => set_noisy_params (<[p.1 := c']> (noisy_params w)) w)
  else ret tt.

Definition perturb_pre_hook_with : M World unit :=
  perturb <- gets perturb_switch ;;
  if perturb then
    noisy <- gets noisy_params ;;
    reset <- gets reset_switch ;;
    if nonempty noisy && negb reset then
      ps <- gets named_parameters ;;
      for_each ps (swap_in noisy_params)
    else
      modify (set_org_params ∅) ;;
      modify (set_noisy_params ∅) ;;
      ps <- gets named_parameters ;;
      for_each ps draw_noise
  else
    perturb' <- gets perturb_switch ;;
    if negb perturb' then
      org <- gets org_params ;;
      if nonempty org then
        ps <- gets named_parameters ;;
        for_each ps (swap_in org_params)
      else ret tt
    else ret tt.

End GenPerturbHook.

(** [perturb_post_hook] *)
Definition perturb_post_hook : M World unit :=
  org <- gets org_params ;;
  if nonempty org then
    ps <- gets named_parameters ;;
    for_each ps (swap_in org_params)
  else ret tt.

(** [perturb_pre_hook], with the generator [perturb_model] passes. *)
Definition perturb_pre_hook : M World unit :=
  perturb_pre_hook_with perturb_gen.

(** *** The closures of [perturb_model] *)

(** [perturb_adjust_hook(_model, _input, output)] *)
Definition perturb_adjust_hook (output : tensor) : M World unit :=
  perturb <- gets perturb_switch ;;
  (if perturb
   then modify (fun w =>
          set_tmp_action (<["with_noise" := output]> (tmp_action w)) w)
   else modify (fun w =>
          set_tmp_action (<["without_noise" := output]> (tmp_action w)) w)) ;;
  tmp <- gets tmp_action ;;
  if bool_decide (is_Some (tmp !! "with_noise"))
     && bool_decide (is_Some (tmp !! "without_noise")) then
    a <- getitem tmp "with_noise" ;;
    b <- getitem tmp "without_noise" ;;
    let dist := distance_func a b in
    modify (set_tmp_action ∅) ;;
    on_param_noise_spec (adapt dist) ;;
    logger_info (LogOutputDistance dist) ;;
    dev <- gets (fun w => get_dev (param_noise_spec w)) ;;
    logger_info (LogParamNoiseStddev dev)
  else ret tt.

(** A call of a registered closure. The pre and post hooks take any
    arguments ([*_]); the adjust hook needs the output. *)
Definition call_hook (h : hook) (output : option tensor) : M World unit :=
  match h with
  | PerturbPreHook => perturb_pre_hook
  | PerturbPostHook => perturb_post_hook
  | PerturbAdjustHook =>
      match output with
      | Some o => perturb_adjust_hook o
      | None => raise TypeError
      end
  end.

(** Modelled from the spec: the lifecycle-callback registration of the
    model collaborator (torch's [register_forward_hook],
    [register_forward_pre_hook] and [RemovableHandle.remove], which are not
    in the repository): ordered pre-evaluation and post-evaluation insertion
    points with removable handles. *)
Definition register_forward_hook (h : hook) : M World handle :=
  fun w =>
    let i := next_handle w in
    Ok (ForwardHandle i)
       (set_next_handle (S i) (set_forward_hooks (forward_hooks w ++ [(i, h)]) w)).

Definition register_forward_pre_hook (h : hook) : M World handle :=
  fun w =>
    let i := next_handle w in
    Ok (ForwardPreHandle i)
       (set_next_handle (S i)
          (set_forward_pre_hooks (forward_pre_hooks w ++ [(i, h)]) w)).

Definition remove_key (i : nat) (l : list (nat * hook)) : list (nat * hook) :=
  filter (fun p => p.1 ≠ i) l.

Definition handle_remove (hh : handle) : M World unit :=
  match hh with
  | ForwardPreHandle i =>
      modify (fun w => set_forward_pre_hooks (remove_key i (forward_pre_hooks w)) w)
  | ForwardHandle i =>
      modify (fun w => set_forward_hooks (remove_key i (forward_hooks w)) w)
  end.

(** Modelled from the spec: the evaluation entry point of the model
    collaborator (torch's [Module.__call__], not in the repository): the
    pre-evaluation callbacks run in order, the model produces its output
    from the values its parameters hold then, and the post-evaluation
    callbacks run in order on that output. *)
Definition call_model (x : input) : M World tensor :=
  pre <- gets forward_pre_hooks ;;
  for_each pre (fun p => call_hook p.2 None) ;;
  output <- gets (fun w => forward (live w) x) ;;
  post <- gets forward_hooks ;;
  for_each post (fun p => call_hook p.2 (Some output)) ;;
  ret output.

Definition of_result {A} (r : exn + A) : M World A :=
  match r with
  | inl e => raise e
  | inr a => ret a
  end.

(** [perturb_model(model, perturb_switch, reset_switch, distance_func,
    desired_action_stddev, ...)]: the statements of its body, on the world
    that holds the model and the two switches. The two functions it returns
    are [reset] and [deregister] below. *)
Definition perturb_model (desired : float) : M World unit :=
  modify (set_tmp_action ∅) ;;
  modify (set_reset_hooks []) ;;
  modify (set_hook_handles []) ;;
  spec <- of_result (AdaptiveParamNoise_init default_initial_stddev desired
                       default_adoption_coefficient) ;;
  modify (set_param_noise_spec spec) ;;
  hh <- register_forward_hook PerturbAdjustHook ;;
  modify (fun w => set_hook_handles (hook_handles w ++ [hh]) w) ;;
  modify (set_org_params ∅) ;;
  modify (set_noisy_params ∅) ;;
  modify (fun w => set_reset_hooks (reset_hooks w ++ [PerturbPostHook]) w) ;;
  hh' <- register_forward_pre_hook PerturbPreHook ;;
  modify (fun w => set_hook_handles (hook_handles w ++ [hh']) w).

(** [reset()] *)
Definition reset : M World unit :=
  hs <- gets reset_hooks ;;
  for_each hs (fun h => call_hook h None).

(** [deregister()] *)
Definition deregister : M World unit :=
  hhs <- gets hook_handles ;;
  for_each hhs handle_remove.

(** *** The caller *)

(** The caller sets the two switches ([perturb_switch], [reset_switch]) and
    the pre-evaluation callback runs. *)
Definition pre_evaluate (sw : bool * bool) : M World unit :=
  modify (set_perturb_switch sw.1) ;;
  modify (set_reset_switch sw.2) ;;
  perturb_pre_hook.

(** The caller sets the perturb switch and the model produces an output
    that the post-evaluation callback records. *)
Definition record_output (perturb : bool) (output : tensor) : M World unit :=
  modify (set_perturb_switch perturb) ;;
  perturb_adjust_hook output.

(** The key under which an output is recorded, by the perturb switch. *)
Definition tag (perturb : bool) : string :=
  if perturb then "with_noise" else "without_noise".

(** The world after [perturb_adjust_hook] has computed a distance [dist]
    and the controller has become [spec]. *)
Definition adapted (dist : float) (spec : AdaptiveParamNoise) (w : World)
    : World :=
  set_logger
    (logger w ++ [LogOutputDistance dist; LogParamNoiseStddev (get_dev spec)])
    (set_param_noise_spec spec (set_tmp_action ∅ w)).

(** The world [perturb_model] leaves: the session. *)
Definition session (desired : float) (w : World) : World :=
  mkWorld (named_parameters w) (param_storage w) (storage w) (next_storage w)
    (forward_pre_hooks w ++ [(S (next_handle w), PerturbPreHook)])
    (forward_hooks w ++ [(next_handle w, PerturbAdjustHook)])
    (S (S (next_handle w)))
    (perturb_switch w) (reset_switch w) ∅ ∅ ∅
    (mkAdaptiveParamNoise default_initial_stddev desired
       default_adoption_coefficient default_initial_stddev)
    [PerturbPostHook]
    [ForwardHandle (next_handle w); ForwardPreHandle (S (next_handle w))]
    (rng_state w) (logger w).

(** The world once the caller has set the two switches. *)
Definition switched (sw : bool * bool) (w : World) : World :=
  set_reset_switch sw.2 (set_perturb_switch sw.1 w).

(** Whether [pre_evaluate sw] takes the branch that draws fresh noise. *)
Definition draws_noise (w : World) (sw : bool * bool) : bool :=
  sw.1 && negb (nonempty (noisy_params w) && negb sw.2).

(** The names of the parameters that are tensors. *)
Definition is_param (w : World) (n : string) : Prop :=
  (n, true) ∈ named_parameters w.

(** *** Well-formed worlds and the effect of the loops *)

(** A snapshot dictionary that has an entry for every tensor parameter. *)
Definition complete (w : World) (d : gmap string addr) : Prop :=
  forall n, is_param w n -> is_Some (d !! n).

(** The cells a dictionary names are allocated, and no two names share one. *)
Definition allocated (w : World) (d : gmap string addr) : Prop :=
  forall n a, d !! n = Some a -> a < next_storage w.

Definition separate (d : gmap string addr) : Prop :=
  forall n m a, d !! n = Some a -> d !! m = Some a -> n = m.

(** The worlds the hooks are meant for: parameter names are unique, the
    tensors of two parameters do not share a cell, every cell in use is
    allocated, and the two snapshot dictionaries are both empty or both
    hold every tensor parameter. *)
Record wf (w : World) : Prop := mkWf {
  wf_names : NoDup (named_parameters w).*1;
  wf_param_allocated :
    forall n, is_param w n -> param_storage w n < next_storage w;
  wf_param_separate :
    forall n m, is_param w n -> is_param w m ->
      param_storage w n = param_storage w m -> n = m;
  wf_snapshots :
    (org_params w = ∅ /\ noisy_params w = ∅)
    \/ (org_params w <> ∅ /\ noisy_params w <> ∅
        /\ complete w (org_params w) /\ complete w (noisy_params w));
  wf_org_allocated : allocated w (org_params w);
  wf_org_separate : separate (org_params w);
  wf_noisy_allocated : allocated w (noisy_params w);
  wf_noisy_separate : separate (noisy_params w)
}.

(** The cell of every tensor parameter after the loop that swaps the
    snapshots of [d] in. *)
Definition redirect (d : gmap string addr) (ps : list (string * bool))
    (f : string -> addr) : string -> addr :=
  foldl (fun (f : string -> addr) (p : string * bool) =>
           if p.2 then
             match d !! p.1 with
             | Some a => <[p.1 := a]> f
             | None => f
             end
           else f) f ps.

(** The world after the loop that swaps the snapshots of [d] in. *)
Definition swapped (d : gmap string addr) (w : World) : World :=
  set_param_storage (redirect d (named_parameters w) (param_storage w)) w.

(** The sample [perturb_gen] returns for a random state, a standard
    deviation, a shape and a device, with the next random state. *)
Definition sample (g : rng) (std : float) (sh : shape) (dev : device)
    : tensor * rng :=
  match noise_generate_function with
  | Some f => f g sh dev std
  | None =>
      let '(x, g') := noise_generator g sh dev in (tensor_mul x std, g')
  end.

(** The sample drawn for a tensor that holds [v] in the world [w]. *)
Definition sample_for (w : World) (v : tensor) : tensor * rng :=
  sample (rng_state w) (get_dev (param_noise_spec w))
    (tensor_shape v) (tensor_device v).

(** The noise source gives samples that the in-place addition accepts. *)
Definition conforms : Prop :=
  forall (g : rng) (std : float) (v : tensor),
    is_Some (tensor_iadd v (sample g std (tensor_shape v) (tensor_device v)).1).

(** A world in which the loop that draws noise has replaced what it
    writes: the two dictionaries, the cells, the allocation mark and the
    random state. *)
Definition redrawn (org noisy : gmap string addr) (h : addr -> tensor)
    (k : addr) (g : rng) (w : World) : World :=
  set_org_params org
    (set_noisy_params noisy
       (set_storage h (set_next_storage k (set_rng_state g w)))).

(** The world after one round of the loop on the tensor parameter [n],
    when the sample is [x] and the sum is [r]. *)
Definition drawn (n : string) (r : tensor) (g : rng) (w : World) : World :=
  let a := next_storage w in
  redrawn (<[n := a]> (org_params w)) (<[n := S a]> (noisy_params w))
    (<[S a := r]> (<[param_storage w n := r]> (<[a := live w n]> (storage w))))
    (S (S a)) g w.

(** The world in which the round on [n] raises: the original is cloned and
    the sample is drawn, the parameter is not written. *)
Definition rejected (n : string) (g : rng) (w : World) : World :=
  let a := next_storage w in
  redrawn (<[n := a]> (org_params w)) (noisy_params w)
    (<[a := live w n]> (storage w)) (S a) g w.

(** What the loop that draws noise over [ps] has done when it returns,
    from the world [w]: the dictionaries [org] and [noisy], the cells [h]
    and the allocation mark [k] it leaves.
    - old cells other than those of the parameters are as before;
    - every tensor parameter has a new cell in [org] that holds the value
      the parameter had, and a new cell in [noisy] that holds the value it
      has now;
    - the value it has now is the sum of the value it had and of a sample
      drawn for its shape and device;
    - the entries of other names are kept, and no two parameters share a
      snapshot cell. *)
Record drawn_all (ps : list (string * bool)) (w : World)
    (org noisy : gmap string addr) (h : addr -> tensor) (k : addr)
    : Prop := mkDrawnAll {
  da_mark : next_storage w <= k;
  da_frame :
    forall a, a < next_storage w ->
      (forall n, (n, true) ∈ ps -> param_storage w n <> a) ->
      h a = storage w a;
  da_org :
    forall n, (n, true) ∈ ps ->
      exists a, org !! n = Some a
        /\ next_storage w <= a < k /\ h a = live w n;
  da_noisy :
    forall n, (n, true) ∈ ps ->
      exists b, noisy !! n = Some b
        /\ next_storage w <= b < k /\ h b = h (param_storage w n);
  da_sum :
    forall n, (n, true) ∈ ps ->
      exists g,
        tensor_iadd (live w n)
          (sample g (get_dev (param_noise_spec w))
             (tensor_shape (live w n)) (tensor_device (live w n))).1
        = Some (h (param_storage w n));
  da_others :
    forall n, (n, true) ∉ ps ->
      org !! n = org_params w !! n /\ noisy !! n = noisy_params w !! n;
  da_org_separate :
    forall n m a, (n, true) ∈ ps -> (m, true) ∈ ps ->
      org !! n = Some a -> org !! m = Some a -> n = m;
  da_noisy_separate :
    forall n m a, (n, true) ∈ ps -> (m, true) ∈ ps ->
      noisy !! n = Some a -> noisy !! m = Some a -> n = m
}.

(** The original snapshot holds the value [V n] for every tensor
    parameter [n]. *)
Definition holds_original (V : string -> tensor) (w : World) : Prop :=
  forall n, is_param w n -> snapshot w (org_params w) n = Some (V n).

(** The world with both snapshot dictionaries cleared. *)
Definition cleared (w : World) : World :=
  set_noisy_params ∅ (set_org_params ∅ w).

(** *** The session as its caller drives it *)

(** An in-place write of the tensor of parameter [n] by the caller, as the
    step of an optimizer does after [reset()]: the cell the parameter uses
    gets the content [v]. *)
Definition param_write (n : string) (v : tensor) : M World unit :=
  modify (fun w => set_storage (<[param_storage w n := v]> (storage w)) w).

(** What the caller of a session does: it sets the switches and evaluates
    the model, or it calls [reset()]. *)
Inductive action : Type :=
  | Evaluate (sw : bool * bool) (x : input)
  | Reset.

Definition run_action (a : action) : M World unit :=
  match a with
  | Evaluate sw x => modify (switched sw) ;; _ <- call_model x ;; ret tt
  | Reset => reset
  end.

(** The world after [deregister()]: the two registries without the entries
    whose handles [perturb_model] kept. *)
Definition deregistered (w : World) : World :=
  set_forward_hooks
    (filter (fun p => ForwardHandle p.1 ∉ hook_handles w) (forward_hooks w))
    (set_forward_pre_hooks
       (filter (fun p => ForwardPreHandle p.1 ∉ hook_handles w)
          (forward_pre_hooks w))
       w).

(** Worlds that differ at most in the cell each parameter uses. *)
Definition redirected (w w' : World) : Prop :=
  exists f, w' = set_param_storage f w.

(** Worlds that differ at most in what the pre hook writes: the cell each
    parameter uses, the two snapshot dictionaries, the cells, the
    allocation mark and the random state. *)
Definition perturbed (w w' : World) : Prop :=
  exists f org noisy h k g,
    w' = set_param_storage f (redrawn org noisy h k g w).

(** Worlds that differ at most in what the adjust hook writes: the pending
    outputs, the controller and the log. *)
Definition tracked (w w' : World) : Prop :=
  exists tmp spec log,
    w' = set_logger log (set_param_noise_spec spec (set_tmp_action tmp w)).

(** The samples of one run of the loop that draws noise, by parameter, and
    the random state it leaves: from the random state [g], with the
    standard deviation [std], for parameters that hold the values
    [vals]. *)
Fixpoint noise_plan (g : rng) (std : float) (vals : string -> tensor)
    (ps : list (string * bool)) : list (string * tensor) * rng :=
  match ps with
  | [] => ([], g)
  | (n, true) :: ps' =>
      let '(x, g') :=
        sample g std (tensor_shape (vals n)) (tensor_device (vals n)) in
      let '(l, g'') := noise_plan g' std vals ps' in
      ((n, x) :: l, g'')
  | (_, false) :: ps' => noise_plan g std vals ps'
  end.

(** No cell is both an original and a noisy snapshot. *)
Definition apart (w : World) : Prop :=
  forall n m a,
    org_params w !! n = Some a -> noisy_params w !! m = Some a -> False.

(** A session in use: a well-formed world whose registries hold the pre
    hook and the adjust hook, whose reset list holds the post hook, and
    whose controller has a coefficient that is not zero. *)
Definition in_session (w : World) : Prop :=
  wf w
  /\ (exists i, forward_pre_hooks w = [(i, PerturbPreHook)])
  /\ (exists j, forward_hooks w = [(j, PerturbAdjustHook)])
  /\ reset_hooks w = [PerturbPostHook]
  /\ PrimFloat.eqb (adoption_coefficient (param_noise_spec w)) 0%float = false.

End Embedding.

(** ** A concrete collaborator: dense float tensors *)

Module Dense.

Record dense : Type := mkDense {
  dense_shape : list nat;
  dense_device : string;
  dense_data : list float
}.

(** Modelled from the spec: an in-place addition whose operand does not
    have the shape and the device of the target is a shape mismatch and
    raises; otherwise the elements are added pairwise. *)
Definition dense_iadd (a b : dense) : option dense :=
  if decide (dense_shape a = dense_shape b ∧ dense_device a = dense_device b)
  then Some (mkDense (dense_shape a) (dense_device a)
               (zip_with PrimFloat.add (dense_data a) (dense_data b)))
  else None.

Definition dense_mul (a : dense) (c : float) : dense :=
  mkDense (dense_shape a) (dense_device a)
    (map (fun x => PrimFloat.mul x c) (dense_data a)).

#[export] Instance dense_torch : Torch := {|
  tensor := dense;
  shape := list nat;
  device := string;
  tensor_shape := dense_shape;
  tensor_device := dense_device;
  tensor_iadd := dense_iadd;
  tensor_mul := dense_mul
|}.

Definition numel (sh : list nat) : nat := foldr Nat.mul 1 sh.

(** A deterministic stand-in for a random source: the state counts the
    draws, and every element of the sample is 1 on an even draw and -2 on
    an odd one. *)
Definition draw (g : nat) (sh : list nat) (dev : string) : dense * nat :=
  (mkDense sh dev
     (replicate (numel sh) (if Nat.even g then 1%float else (-2)%float)),
   S g).

(** The order-2 distance of two outputs. *)
Definition dist2 (a b : dense) : float :=
  PrimFloat.sqrt
    (foldr PrimFloat.add 0%float
       (zip_with (fun x y => ((x - y) * (x - y))%float)
          (dense_data a) (dense_data b))).

(** A model whose output is its bias plus its input. *)
Definition bias_forward (values : string -> dense) (x : dense) : dense :=
  mkDense (dense_shape (values "bias")) (dense_device (values "bias"))
    (zip_with PrimFloat.add (dense_data (values "bias")) (dense_data x)).

#[export] Instance dense_args : PerturbArgs := {|
  rng := nat;
  input := dense;
  forward := bias_forward;
  distance_func := dist2;
  noise_generator := draw;
  noise_generate_function := None
|}.

(** A custom noise function whose second sample has the wrong shape. *)
Definition faulty_draw (g : nat) (sh : list nat) (dev : string) (std : float)
    : dense * nat :=
  if decide (g = 1) then (mkDense [] dev [std], S g)
  else (mkDense sh dev (replicate (numel sh) std), S g).

Definition faulty_args : PerturbArgs := {|
  rng := nat;
  input := dense;
  forward := bias_forward;
  distance_func := dist2;
  noise_generator := draw;
  noise_generate_function := Some faulty_draw
|}.

Definition bias0 : dense :=
  mkDense [3] "cpu" [1%float; 2%float; 3%float].

Definition weight0 : dense :=
  mkDense [2; 2] "cpu" [0.5%float; (-0.5)%float; 0.25%float; 4%float].

Definition empty_dense : dense := mkDense [0] "cpu" [].

Definition ones3 : dense := mkDense [3] "cpu" [1%float; 1%float; 1%float].

(** A model with two parameters, of shapes (3,) and (2,2), before
    [perturb_model] is called on it. *)
Definition make_model {A : PerturbArgs} (g : rng) : World :=
  {| named_parameters := [("bias", true); ("weight", true)];
     param_storage := <["bias" := 0]> (<["weight" := 1]> (fun _ => 2));
     storage := <[0 := bias0]> (<[1 := weight0]> (fun _ => empty_dense));
     next_storage := 3;
     forward_pre_hooks := [];
     forward_hooks := [];
     next_handle := 0;
     perturb_switch := false;
     reset_switch := false;
     org_params := ∅;
     noisy_params := ∅;
     tmp_action := ∅;
     param_noise_spec :=
       mkAdaptiveParamNoise default_initial_stddev
         default_desired_action_stddev default_adoption_coefficient
         default_initial_stddev;
     reset_hooks := [];
     hook_handles := [];
     rng_state := g;
     logger := [] |}.

Definition model0 : World := make_model (A := dense_args) 0.

(** The session [perturb_model(model, ..., desired_action_stddev=0.5)]. *)
Definition session0 : World := final (perturb_model 0.5%float model0).

(** The same model and session with the faulty noise function. *)
Definition faulty_model0 : @World _ faulty_args :=
  make_model (A := faulty_args) 0.

Definition faulty_session0 : @World _ faulty_args :=
  final (perturb_model 0.5%float faulty_model0).

(** The session after a first [pre_evaluate] with perturbation on: both
    snapshots are cached. *)
Definition cached0 : World := final (pre_evaluate (true, false) session0).

(** Two calls of [pre_evaluate] that both resample, then the post hook. *)
Definition two_draws : outcome World unit :=
  (for_each [(true, true); (true, true)] pre_evaluate ;; perturb_post_hook)
    session0.

(** One evaluation of the model with perturbation on. *)
Definition evaluation0 : outcome World dense :=
  call_model ones3 (switched (true, true) session0).

(** The session with perturbation on and resampling off. *)
Definition perturbing0 : World := switched (true, false) session0.

(** The cached session with perturbation off. *)
Definition clean0 : World := switched (false, false) cached0.

(** The faulty session with perturbation and resampling on, and the world
    in which the loop that draws noise has processed the bias. *)
Definition faulty_perturbing0 : @World _ faulty_args :=
  switched (true, true) faulty_session0.

Definition faulty_after_bias : @World _ faulty_args :=
  final (for_each [("bias", true)] (draw_noise perturb_gen)
           (cleared faulty_perturbing0)).

(** The faulty session after the call of the pre hook that raised, with
    resampling switched off. *)
Definition faulty_broken0 : @World _ faulty_args :=
  switched (true, false) (final (perturb_pre_hook faulty_perturbing0)).

(** The faulty session on a random source whose first sample is the
    rejected one, with perturbation and resampling on; and the world the
    pre hook leaves there when it raises: the bias has an original
    snapshot, the weight has none. *)
Definition faulty_rejecting0 : @World _ faulty_args :=
  switched (true, true)
    (final (perturb_model 0.5%float (make_model (A := faulty_args) 1))).

Definition faulty_first0 : @World _ faulty_args :=
  final (perturb_pre_hook faulty_rejecting0).

(** The first element of a tensor is 1. *)
Definition starts_with_one (a : dense) : bool :=
  match dense_data a with
  | x :: _ => PrimFloat.eqb x 1%float
  | [] => false
  end.

End Dense.

(** * Properties *)

(** ** The controller *)

Lemma float_truediv_nonzero a b :
  PrimFloat.eqb b 0%float = false -> float_truediv a b = inr (a / b)%float.
Proof. intros Hb. unfold float_truediv. by rewrite Hb. Qed.

Lemma adapt_shrink self distance :
  float_gt distance (desired_action_stddev self) = true ->
  PrimFloat.eqb (adoption_coefficient self) 0%float = false ->
  adapt distance self =
    Ok tt (set_current_stddev
             (current_stddev self / adoption_coefficient self)%float self).
Proof.
  intros Hgt Hnz. unfold adapt. rewrite Hgt.
  by rewrite (float_truediv_nonzero _ _ Hnz).
Qed.

Lemma adapt_grow self distance :
  float_gt distance (desired_action_stddev self) = false ->
  adapt distance self =
    Ok tt (set_current_stddev
             (current_stddev self * adoption_coefficient self)%float self).
Proof. intros Hgt. unfold adapt. by rewrite Hgt. Qed.

(** No float is greater than itself. *)
Lemma float_gt_irrefl x : float_gt x x = false.
Proof.
  unfold float_gt. rewrite ltb_spec. unfold SpecFloat.SFltb.
  destruct (Prim2SF x) as [[]|[]| |[] m e]; simpl; try reflexivity.
  - rewrite Z.compare_refl, Pos.compare_cont_refl. reflexivity.
  - rewrite Z.compare_refl, Pos.compare_cont_refl. reflexivity.
Qed.

(** A controller whose coefficient is not zero adapts without raising. *)
Lemma adapt_returns self distance :
  PrimFloat.eqb (adoption_coefficient self) 0%float = false ->
  exists self', adapt distance self = Ok tt self'
    /\ adoption_coefficient self' = adoption_coefficient self
    /\ desired_action_stddev self' = desired_action_stddev self.
Proof.
  intros Hnz.
  destruct (float_gt distance (desired_action_stddev self)) eqn:Hgt.
  - rewrite (adapt_shrink _ _ Hgt Hnz). eauto.
  - rewrite (adapt_grow _ _ Hgt). eauto.
Qed.

(** C3, as the code has it: the constructor checks nothing. For all
    arguments it returns the object whose fields are the arguments and
    whose current standard deviation is the initial one. *)
Theorem AdaptiveParamNoise_init_total (initial desired coefficient : float) :
  exists self,
    AdaptiveParamNoise_init initial desired coefficient = inr self
    /\ initial_stddev self = initial
    /\ desired_action_stddev self = desired
    /\ adoption_coefficient self = coefficient
    /\ current_stddev self = initial.
Proof. eexists. split; [reflexivity|]. simpl. auto. Qed.

(** C3 fails as stated: with [adoption_coefficient = 1 <= 1] and
    [initial_stddev = 0 <= 0] the construction raises nothing and returns
    an object whose current standard deviation is 0. *)
Lemma AdaptiveParamNoise_init_accepts_invalid :
  float_le 1%float 1%float = true
  /\ float_le 0%float 0%float = true
  /\ (forall e, AdaptiveParamNoise_init 0%float 0.5%float 1%float <> inl e)
  /\ exists self,
       AdaptiveParamNoise_init 0%float 0.5%float 1%float = inr self
       /\ current_stddev self = 0%float.
Proof.
  repeat split; try reflexivity.
  - intros e. discriminate.
  - eexists. split; reflexivity.
Qed.

(** C4: [adapt] divides the current standard deviation by the coefficient
    when the distance is greater than the desired one, and multiplies it
    otherwise, equality included; the other fields are kept. The division
    is Python's, so the coefficient must not be zero (the data model has it
    greater than 1). With initial 0.1, desired 0.5 and coefficient 1.01,
    [adapt(0.6)] gives 0.1/1.01 and [adapt(0.4)] gives 0.1*1.01. *)
Theorem adapt_spec (self : AdaptiveParamNoise) (distance : float) :
  (float_gt distance (desired_action_stddev self) = true ->
   PrimFloat.eqb (adoption_coefficient self) 0%float = false ->
   adapt distance self =
     Ok tt (mkAdaptiveParamNoise (initial_stddev self)
              (desired_action_stddev self) (adoption_coefficient self)
              (current_stddev self / adoption_coefficient self)%float))
  /\ (float_gt distance (desired_action_stddev self) = false ->
      adapt distance self =
        Ok tt (mkAdaptiveParamNoise (initial_stddev self)
                 (desired_action_stddev self) (adoption_coefficient self)
                 (current_stddev self * adoption_coefficient self)%float))
  /\ (distance = desired_action_stddev self ->
      adapt distance self =
        Ok tt (mkAdaptiveParamNoise (initial_stddev self)
                 (desired_action_stddev self) (adoption_coefficient self)
                 (current_stddev self * adoption_coefficient self)%float))
  /\ (forall c, AdaptiveParamNoise_init 0.1%float 0.5%float 1.01%float = inr c ->
      adapt 0.6%float c =
        Ok tt (mkAdaptiveParamNoise 0.1%float 0.5%float 1.01%float
                 (0.1 / 1.01)%float)
      /\ adapt 0.4%float c =
        Ok tt (mkAdaptiveParamNoise 0.1%float 0.5%float 1.01%float
                 (0.1 * 1.01)%float)).
Proof.
  split; [|split; [|split]].
  - intros Hgt Hnz. by rewrite (adapt_shrink _ _ Hgt Hnz).
  - intros Hgt. by rewrite (adapt_grow _ _ Hgt).
  - intros ->. rewrite adapt_grow; [done|]. apply float_gt_irrefl.
  - intros c Hc. injection Hc as <-. split; reflexivity.
Qed.

(** ** Loops *)

Lemma for_each_app {S A} (l1 l2 : list A) (body : A -> M S unit) (s : S) :
  for_each (l1 ++ l2) body s = (for_each l1 body ;; for_each l2 body) s.
Proof.
  revert s. induction l1 as [|x l1 IH]; intros s; simpl.
  - reflexivity.
  - unfold bind in *. destruct (body x s) as [[] s1|e s1]; [|reflexivity].
    apply IH.
Qed.

Lemma bind_ok {S A B} (m : M S A) (k : A -> M S B) (s s1 : S) (a : A) :
  m s = Ok a s1 -> (x <- m ;; k x) s = k a s1.
Proof. intros Hm. unfold bind. by rewrite Hm. Qed.

Lemma bind_raise {S A B} (m : M S A) (k : A -> M S B) (s s1 : S) (e : exn) :
  m s = Raise e s1 -> (x <- m ;; k x) s = Raise e s1.
Proof. intros Hm. unfold bind. by rewrite Hm. Qed.

(** ** The output tracker *)

Section Tracker.
Context `{PerturbArgs}.

Lemma tag_ne b : tag b <> tag (negb b).
Proof. by destruct b. Qed.

Lemma tag_with_noise : tag true = "with_noise".
Proof. reflexivity. Qed.

Lemma tag_without_noise : tag false = "without_noise".
Proof. reflexivity. Qed.

(** What one call of the hook does, by the content of the pending
    dictionary once the output is stored. *)
Lemma perturb_adjust_hook_unfold (w : World) (output : tensor) :
  perturb_adjust_hook output w =
    let tmp := <[tag (perturb_switch w) := output]> (tmp_action w) in
    match tmp !! "with_noise", tmp !! "without_noise" with
    | Some a, Some b =>
        match adapt (distance_func a b) (param_noise_spec w) with
        | Ok _ spec => Ok tt (adapted (distance_func a b) spec w)
        | Raise e spec =>
            Raise e (set_param_noise_spec spec (set_tmp_action ∅ w))
        end
    | _, _ => Ok tt (set_tmp_action tmp w)
    end.
Proof.
  unfold perturb_adjust_hook, bind, gets.
  destruct (perturb_switch w); simpl;
    unfold modify; simpl;
    match goal with
    | |- context [bool_decide (is_Some (?m !! "with_noise"))] =>
        destruct (m !! "with_noise") as [a|] eqn:Ha; simpl
    end;
    try match goal with
    | |- context [bool_decide (is_Some (?m !! "without_noise"))] =>
        destruct (m !! "without_noise") as [b|] eqn:Hb; simpl
    end;
    rewrite ?bool_decide_eq_true_2, ?bool_decide_eq_false_2
      by (eauto using is_Some_None; by apply is_Some_None);
    simpl; try reflexivity.
  all: unfold getitem; rewrite Ha, Hb; unfold ret; simpl.
  all: unfold on_param_noise_spec; simpl.
  all: destruct (adapt (distance_func a b) (param_noise_spec w)) as [[] s|e s];
    simpl; [|reflexivity].
  all: unfold logger_info, modify, adapted; simpl.
  all: by rewrite <- app_assoc.
Qed.

Lemma record_output_unfold (w : World) (b : bool) (output : tensor) :
  record_output b output w = perturb_adjust_hook output (set_perturb_switch b w).
Proof. reflexivity. Qed.

(** While the other tag is not pending, an output is stored under its own
    tag and nothing else happens. *)
Lemma record_output_pending (w : World) (b : bool) (output : tensor) :
  tmp_action w !! tag (negb b) = None ->
  record_output b output w =
    Ok tt (set_tmp_action (<[tag b := output]> (tmp_action w))
             (set_perturb_switch b w)).
Proof.
  intros Hother. rewrite record_output_unfold, perturb_adjust_hook_unfold.
  simpl. destruct b; simpl in *.
  - rewrite lookup_insert_eq, lookup_insert_ne, Hother by done. reflexivity.
  - rewrite lookup_insert_ne, Hother by done. reflexivity.
Qed.

(** When the other tag is pending, the pair is consumed: the distance of
    the with-noise output to the without-noise output goes to [adapt]. *)
Lemma record_output_completes (w : World) (b : bool) (output other : tensor) :
  tmp_action w !! tag (negb b) = Some other ->
  PrimFloat.eqb (adoption_coefficient (param_noise_spec w)) 0%float = false ->
  let dist := if b then distance_func output other
              else distance_func other output in
  exists spec,
    adapt dist (param_noise_spec w) = Ok tt spec
    /\ record_output b output w = Ok tt (adapted dist spec (set_perturb_switch b w)).
Proof.
  intros Hother Hnz dist.
  destruct (adapt_returns (param_noise_spec w) dist Hnz) as (spec & Hspec & _).
  exists spec. split; [done|].
  rewrite record_output_unfold, perturb_adjust_hook_unfold.
  simpl. destruct b; simpl in *.
  - rewrite lookup_insert_eq, lookup_insert_ne, Hother by done.
    subst dist. by rewrite Hspec.
  - rewrite lookup_insert_eq, lookup_insert_ne, Hother by done.
    subst dist. by rewrite Hspec.
Qed.

(** After a call that returns, the two tags are never both pending. *)
Lemma record_output_not_both (w w' : World) (b : bool) (output : tensor) :
  record_output b output w = Ok tt w' ->
  tmp_action w' !! "with_noise" = None
  \/ tmp_action w' !! "without_noise" = None.
Proof.
  rewrite record_output_unfold, perturb_adjust_hook_unfold. simpl.
  destruct (_ !! "with_noise") as [a|] eqn:Ha;
    [destruct (_ !! "without_noise") as [c|] eqn:Hc|].
  - destruct (adapt _ _) as [[] spec|e spec]; [|discriminate].
    intros [= <-]. left. apply lookup_empty.
  - intros [= <-]. by right.
  - intros [= <-]. by left.
Qed.

(** A run of outputs under one value of the switch, the other tag not
    pending: nothing is computed and the last output is the pending one. *)
Lemma record_outputs_same_tag (outs : list tensor) (w : World) (b : bool) :
  tmp_action w !! tag (negb b) = None ->
  exists w',
    for_each outs (record_output b) w = Ok tt w'
    /\ param_noise_spec w' = param_noise_spec w
    /\ logger w' = logger w
    /\ tmp_action w' !! tag (negb b) = None
    /\ tmp_action w' !! tag b
       = match list.last outs with
         | Some o => Some o
         | None => tmp_action w !! tag b
         end.
Proof.
  revert w. induction outs as [|o outs IH]; intros w Hother.
  - exists w. simpl. auto.
  - simpl. rewrite (bind_ok _ _ _ _ _ (record_output_pending w b o Hother)).
    set (w1 := set_tmp_action _ _).
    destruct (IH w1) as (w' & Hrun & Hspec & Hlog & Hnone & Hlast).
    { subst w1. simpl. rewrite lookup_insert_ne; [done|]. apply tag_ne. }
    exists w'. split; [done|]. split; [done|]. split; [done|]. split; [done|].
    rewrite Hlast. subst w1. simpl.
    destruct outs as [|o' outs']; simpl.
    + by rewrite lookup_insert_eq.
    + destruct (list.last (o' :: outs')) eqn:Hl; [done|].
      by apply last_None in Hl.
Qed.

(** C7: the tracker holds at most one output per tag, the new output taking
    the place of a pending one of its tag. Once both tags are present the
    hook computes [distance_func with_noise without_noise], passes it to
    [adapt] and clears the pending outputs; while a tag is missing the
    output is only stored: the controller and the log are as before.
    Either tag may come first. The controller's coefficient is not zero (it
    is 1.01 in a session), so that [adapt] does not raise. *)
Theorem perturb_adjust_hook_pairs (w : World) (output : tensor) :
  let tmp := <[tag (perturb_switch w) := output]> (tmp_action w) in
  (forall a b,
     tmp !! "with_noise" = Some a ->
     tmp !! "without_noise" = Some b ->
     PrimFloat.eqb (adoption_coefficient (param_noise_spec w)) 0%float = false ->
     exists spec,
       adapt (distance_func a b) (param_noise_spec w) = Ok tt spec
       /\ perturb_adjust_hook output w
          = Ok tt (adapted (distance_func a b) spec w))
  /\ (tmp !! "with_noise" = None \/ tmp !! "without_noise" = None ->
      perturb_adjust_hook output w = Ok tt (set_tmp_action tmp w))
  /\ (forall o1 o2,
      tmp_action w !! "with_noise" = None ->
      tmp_action w !! "without_noise" = None ->
      PrimFloat.eqb (adoption_coefficient (param_noise_spec w)) 0%float = false ->
      exists spec,
        adapt (distance_func o1 o2) (param_noise_spec w) = Ok tt spec
        /\ (record_output true o1 ;; record_output false o2) w
           = Ok tt (adapted (distance_func o1 o2) spec
                      (set_perturb_switch false w))
        /\ (record_output false o2 ;; record_output true o1) w
           = Ok tt (adapted (distance_func o1 o2) spec
                      (set_perturb_switch true w))).
Proof.
  intros tmp. split; [|split].
  - intros a b Ha Hb Hnz.
    destruct (adapt_returns (param_noise_spec w) (distance_func a b) Hnz)
      as (spec & Hspec & _).
    exists spec. split; [done|].
    rewrite perturb_adjust_hook_unfold. fold tmp. simpl.
    by rewrite Ha, Hb, Hspec.
  - intros Hmiss. rewrite perturb_adjust_hook_unfold. fold tmp. simpl.
    destruct Hmiss as [-> | Hb]; [done|].
    rewrite Hb. by destruct (tmp !! "with_noise").
  - intros o1 o2 Hwith Hwithout Hnz.
    destruct (adapt_returns (param_noise_spec w) (distance_func o1 o2) Hnz)
      as (spec & Hspec & _).
    exists spec. split; [done|]. split.
    + rewrite (bind_ok _ _ _ _ _ (record_output_pending w true o1 Hwithout)).
      set (w1 := set_tmp_action _ _).
      destruct (record_output_completes w1 false o2 o1) as (spec' & Hspec' & ->).
      { subst w1. simpl. by rewrite lookup_insert_eq. }
      { done. }
      simpl in Hspec'. rewrite Hspec in Hspec'. by injection Hspec' as <-.
    + rewrite (bind_ok _ _ _ _ _ (record_output_pending w false o2 Hwith)).
      set (w1 := set_tmp_action _ _).
      destruct (record_output_completes w1 true o1 o2) as (spec' & Hspec' & ->).
      { subst w1. simpl. by rewrite lookup_insert_eq. }
      { done. }
      simpl in Hspec'. rewrite Hspec in Hspec'. by injection Hspec' as <-.
Qed.

(** C10: while the other tag is not pending, an output recorded under the
    switch value [b] takes the place of the pending output of its tag; any
    number of such outputs in a row leaves the controller and the log as
    they were, so no distance is computed and nothing adapts; and when the
    other tag then arrives, the distance is the one of the last output of
    each tag. *)
Theorem record_output_replaces (w : World) (b : bool) :
  tmp_action w !! tag (negb b) = None ->
  (forall o,
     exists w',
       record_output b o w = Ok tt w'
       /\ tmp_action w' = <[tag b := o]> (tmp_action w)
       /\ tmp_action w' !! tag b = Some o
       /\ param_noise_spec w' = param_noise_spec w
       /\ logger w' = logger w)
  /\ (forall outs,
      exists w',
        for_each outs (record_output b) w = Ok tt w'
        /\ param_noise_spec w' = param_noise_spec w
        /\ logger w' = logger w
        /\ tmp_action w' !! tag (negb b) = None
        /\ tmp_action w' !! tag b
           = match list.last outs with
             | Some o => Some o
             | None => tmp_action w !! tag b
             end)
  /\ (forall outs o o',
      PrimFloat.eqb (adoption_coefficient (param_noise_spec w)) 0%float = false ->
      let dist := if b then distance_func o o' else distance_func o' o in
      exists spec w',
        adapt dist (param_noise_spec w) = Ok tt spec
        /\ (for_each (outs ++ [o]) (record_output b) ;;
            record_output (negb b) o') w = Ok tt w'
        /\ param_noise_spec w' = spec
        /\ logger w'
           = logger w ++ [LogOutputDistance dist;
                          LogParamNoiseStddev (get_dev spec)]
        /\ tmp_action w' = ∅).
Proof.
  intros Hother. split; [|split].
  - intros o. eexists. split; [by apply record_output_pending|].
    simpl. by rewrite lookup_insert_eq.
  - intros outs. by apply record_outputs_same_tag.
  - intros outs o o' Hnz dist.
    destruct (record_outputs_same_tag (outs ++ [o]) w b Hother)
      as (w1 & Hrun & Hspec1 & Hlog1 & Hnone1 & Hlast1).
    rewrite last_snoc in Hlast1.
    destruct (record_output_completes w1 (negb b) o' o) as (spec & Hspec & Hrec).
    { by rewrite negb_involutive. }
    { by rewrite Hspec1. }
    exists spec. eexists. split; [|split].
    + rewrite <- Hspec1. rewrite <- Hspec. subst dist. by destruct b.
    + rewrite (bind_ok _ _ _ _ _ Hrun). apply Hrec.
    + simpl. rewrite Hlog1. split; [done|]. split; [|done].
      subst dist. by destruct b.
Qed.

End Tracker.

(** ** The pre and post hooks *)

Section Hooks.
Context `{PerturbArgs}.

Lemma perturb_gen_unfold (sh : shape) (dev : device) (w : World) :
  perturb_gen sh dev w =
    Ok (sample (rng_state w) (get_dev (param_noise_spec w)) sh dev).1
       (set_rng_state
          (sample (rng_state w) (get_dev (param_noise_spec w)) sh dev).2 w).
Proof.
  unfold perturb_gen, sample.
  destruct noise_generate_function as [f|].
  - unfold param_noise_custom_gen_wrapper.
    by destruct (f _ _ _ _).
  - unfold param_noise_gen. by destruct (noise_generator _ _ _).
Qed.

Lemma fn_insert_self {A} (f : nat -> A) (a b : nat) :
  (<[a := f b]> f) b = f b.
Proof.
  destruct (decide (a = b)) as [->|Hne].
  - apply fn_lookup_insert.
  - by apply fn_lookup_insert_ne.
Qed.

(** One round of the loop that draws noise, on a tensor parameter. *)
Lemma draw_noise_unfold (n : string) (w : World) :
  draw_noise perturb_gen (n, true) w =
    match tensor_iadd (live w n) (sample_for w (live w n)).1 with
    | Some r => Ok tt (drawn n r (sample_for w (live w n)).2 w)
    | None => Raise RuntimeError (rejected n (sample_for w (live w n)).2 w)
    end.
Proof.
  unfold draw_noise, bind, clone_param, modify, gets. simpl.
  unfold live at 1 2. simpl. rewrite !fn_insert_self.
  rewrite perturb_gen_unfold. simpl.
  unfold iadd_param, live. simpl. rewrite !fn_insert_self.
  fold (live w n). unfold sample_for.
  destruct (tensor_iadd _ _) as [r|]; [|reflexivity].
  simpl. rewrite fn_lookup_insert. reflexivity.
Qed.

Lemma draw_noise_skip (n : string) (w : World) :
  draw_noise perturb_gen (n, false) w = Ok tt w.
Proof. reflexivity. Qed.

(** With a conforming noise source the loop that draws noise returns. *)
Lemma draw_noise_loop_returns (ps : list (string * bool)) (w : World) :
  conforms ->
  exists w', for_each ps (draw_noise perturb_gen) w = Ok tt w'.
Proof.
  intros Hconf. revert w. induction ps as [|[n []] ps IH]; intros w.
  - by exists w.
  - simpl. unfold bind. rewrite draw_noise_unfold.
    destruct (Hconf (rng_state w) (get_dev (param_noise_spec w)) (live w n))
      as [r Hr].
    unfold sample_for. rewrite Hr. apply IH.
  - simpl. unfold bind. rewrite draw_noise_skip. apply IH.
Qed.

Lemma elem_of_names (ps : list (string * bool)) (n : string) (b : bool) :
  (n, b) ∈ ps -> n ∈ ps.*1.
Proof. intros Hin. apply list_elem_of_fmap. by exists (n, b). Qed.

Lemma drawn_all_nil (w : World) :
  drawn_all [] w (org_params w) (noisy_params w) (storage w) (next_storage w).
Proof.
  split; try done; set_solver.
Qed.

Lemma drawn_all_skip (ps : list (string * bool)) (n : string) (w : World)
    org noisy h k :
  drawn_all ps w org noisy h k -> drawn_all ((n, false) :: ps) w org noisy h k.
Proof.
  intros Hda.
  destruct Hda as [Hmark Hframe Horg Hnoisy Hsum Hothers Hosep Hnsep].
  assert (Hin : forall m, (m, true) ∈ (n, false) :: ps <-> (m, true) ∈ ps).
  { intros m. rewrite elem_of_cons.
    split; [intros [Heq|Hm]; [discriminate|done] | by right]. }
  split; try done.
  - intros a Ha Hne. apply Hframe; [done|]. intros m Hm. apply Hne. by apply Hin.
  - intros m Hm. apply Horg. by apply Hin.
  - intros m Hm. apply Hnoisy. by apply Hin.
  - intros m Hm. apply Hsum. by apply Hin.
  - intros m Hm. apply Hothers. by rewrite <- Hin.
  - intros m m' a Hm Hm'. apply Hosep; by apply Hin.
  - intros m m' a Hm Hm'. apply Hnsep; by apply Hin.
Qed.

(** The cells of the world after one round on [n]. *)
Lemma drawn_storage_old (n : string) (r : tensor) (g : rng) (w : World) (a : addr) :
  a < next_storage w -> a <> param_storage w n ->
  storage (drawn n r g w) a = storage w a.
Proof.
  intros Ha Hne. simpl.
  rewrite !fn_lookup_insert_ne by lia. reflexivity.
Qed.

Lemma drawn_storage_param (n : string) (r : tensor) (g : rng) (w : World) :
  param_storage w n < next_storage w ->
  storage (drawn n r g w) (param_storage w n) = r.
Proof.
  intros Hn. simpl.
  rewrite fn_lookup_insert_ne by lia. apply fn_lookup_insert.
Qed.

Lemma drawn_storage_org (n : string) (r : tensor) (g : rng) (w : World) :
  param_storage w n < next_storage w ->
  storage (drawn n r g w) (next_storage w) = live w n.
Proof.
  intros Hn. simpl.
  rewrite !fn_lookup_insert_ne by lia. apply fn_lookup_insert.
Qed.

Lemma drawn_storage_noisy (n : string) (r : tensor) (g : rng) (w : World) :
  storage (drawn n r g w) (S (next_storage w)) = r.
Proof. simpl. apply fn_lookup_insert. Qed.

Lemma drawn_all_cons (ps : list (string * bool)) (n : string) (w : World)
    (r : tensor) (g : rng) org noisy h k :
  n ∉ ps.*1 ->
  param_storage w n < next_storage w ->
  (forall m, (m, true) ∈ ps -> param_storage w m < next_storage w) ->
  (forall m, (m, true) ∈ ps -> param_storage w m <> param_storage w n) ->
  tensor_iadd (live w n) (sample_for w (live w n)).1 = Some r ->
  drawn_all ps (drawn n r g w) org noisy h k ->
  drawn_all ((n, true) :: ps) w org noisy h k.
Proof.
  intros Hfresh Hn Hbelow Hsep Hr Hda.
  destruct Hda as [Hmark Hframe Horg Hnoisy Hsum Hothers Hosep Hnsep].
  set (w1 := drawn n r g w) in *.
  assert (Hnext : next_storage w1 = S (S (next_storage w))) by reflexivity.
  assert (Hparam : param_storage w1 = param_storage w) by reflexivity.
  assert (Hnotin : (n, true) ∉ ps).
  { intros Hin. apply Hfresh. by eapply elem_of_names. }
  assert (Hlive : forall m, (m, true) ∈ ps -> live w1 m = live w m).
  { intros m Hm. unfold live. rewrite Hparam.
    apply drawn_storage_old; [by apply Hbelow | by apply Hsep]. }
  assert (Hh_old : forall a, a < next_storage w1 ->
            (forall m, (m, true) ∈ ps -> param_storage w m <> a) ->
            h a = storage w1 a).
  { intros a Ha Hne. apply Hframe; [done|]. by rewrite Hparam. }
  assert (Hh_n : h (param_storage w n) = r).
  { rewrite Hh_old; [by apply drawn_storage_param | lia | done]. }
  destruct (Hothers n Hnotin) as [Horg_n Hnoisy_n].
  simpl in Horg_n, Hnoisy_n. rewrite lookup_insert_eq in Horg_n, Hnoisy_n.
  split.
  - lia.
  - intros a Ha Hne. rewrite Hh_old; [|lia|].
    + apply drawn_storage_old; [done|]. intros ->.
      eapply Hne; [|done]. apply elem_of_cons. by left.
    + intros m Hm. apply Hne. apply elem_of_cons. by right.
  - intros m [Heq|Hm]%elem_of_cons.
    + injection Heq as ->. exists (next_storage w).
      split; [done|]. split; [lia|].
      rewrite Hh_old; [by apply drawn_storage_org | lia |].
      intros m Hm. specialize (Hbelow m Hm). lia.
    + destruct (Horg m Hm) as (a & Ha & Hrange & Hval).
      exists a. split; [done|]. split; [lia|]. by rewrite Hval, Hlive.
  - intros m [Heq|Hm]%elem_of_cons.
    + injection Heq as ->. exists (S (next_storage w)).
      split; [done|]. split; [lia|].
      rewrite Hh_n. rewrite Hh_old; [by apply drawn_storage_noisy | lia |].
      intros m Hm. specialize (Hbelow m Hm). lia.
    + destruct (Hnoisy m Hm) as (b & Hb & Hrange & Hval).
      exists b. split; [done|]. split; [lia|]. by rewrite Hval, Hparam.
  - intros m [Heq|Hm]%elem_of_cons.
    + injection Heq as ->. exists (rng_state w). rewrite Hh_n. apply Hr.
    + destruct (Hsum m Hm) as (g' & Hg'). exists g'.
      rewrite (Hlive m Hm), Hparam in Hg'. apply Hg'.
  - intros m Hm. apply not_elem_of_cons in Hm as [Hne Hm].
    destruct (Hothers m Hm) as [Ho Hn']. simpl in Ho, Hn'.
    rewrite lookup_insert_ne in Ho, Hn' by congruence. done.
  - intros m m' a [Heq|Hm]%elem_of_cons [Heq'|Hm']%elem_of_cons Ha Ha'.
    + congruence.
    + injection Heq as ->. destruct (Horg m' Hm') as (a' & Ha'' & Hrange & _).
      rewrite Horg_n in Ha. simplify_eq. lia.
    + injection Heq' as ->. destruct (Horg m Hm) as (a' & Ha'' & Hrange & _).
      rewrite Horg_n in Ha'. simplify_eq. lia.
    + by eapply Hosep.
  - intros m m' a [Heq|Hm]%elem_of_cons [Heq'|Hm']%elem_of_cons Ha Ha'.
    + congruence.
    + injection Heq as ->. destruct (Hnoisy m' Hm') as (a' & Ha'' & Hrange & _).
      rewrite Hnoisy_n in Ha. simplify_eq. lia.
    + injection Heq' as ->. destruct (Hnoisy m Hm) as (a' & Ha'' & Hrange & _).
      rewrite Hnoisy_n in Ha'. simplify_eq. lia.
    + by eapply Hnsep.
Qed.

(** The loop that draws noise, when it returns: what it leaves. *)
Lemma draw_noise_loop_spec (ps : list (string * bool)) (w w' : World) :
  NoDup ps.*1 ->
  (forall n, (n, true) ∈ ps -> param_storage w n < next_storage w) ->
  (forall n m, (n, true) ∈ ps -> (m, true) ∈ ps ->
     param_storage w n = param_storage w m -> n = m) ->
  for_each ps (draw_noise perturb_gen) w = Ok tt w' ->
  exists org noisy h k g,
    w' = redrawn org noisy h k g w /\ drawn_all ps w org noisy h k.
Proof.
  revert w. induction ps as [|[n []] ps IH]; intros w Hnodup Hbelow Hsep Hrun.
  - simpl in Hrun. injection Hrun as <-.
    exists (org_params w), (noisy_params w), (storage w), (next_storage w),
      (rng_state w).
    split; [by destruct w | apply drawn_all_nil].
  - simpl in Hrun. unfold bind in Hrun. rewrite draw_noise_unfold in Hrun.
    destruct (tensor_iadd _ _) as [r|] eqn:Hr; [|discriminate].
    set (g1 := (sample_for w (live w n)).2) in *.
    apply list.NoDup_cons in Hnodup as [Hfresh Hnodup].
    assert (Hn : (n, true) ∈ (n, true) :: ps) by (apply elem_of_cons; by left).
    assert (Htail : forall m, (m, true) ∈ ps -> (m, true) ∈ (n, true) :: ps)
      by (intros m Hm; apply elem_of_cons; by right).
    destruct (IH (drawn n r g1 w)) as (org & noisy & h & k & g & -> & Hda).
    + done.
    + intros m Hm. simpl. specialize (Hbelow m (Htail m Hm)). lia.
    + intros m m' Hm Hm'. simpl. apply Hsep; by apply Htail.
    + done.
    + exists org, noisy, h, k, g. split; [reflexivity|].
      eapply drawn_all_cons; eauto.
      intros m Hm Heq. apply Hsep in Heq; [|by apply Htail|done].
      subst m. apply Hfresh. by eapply elem_of_names.
  - simpl in Hrun. unfold bind in Hrun. rewrite draw_noise_skip in Hrun.
    apply list.NoDup_cons in Hnodup as [Hfresh Hnodup].
    assert (Htail : forall m, (m, true) ∈ ps -> (m, true) ∈ (n, false) :: ps)
      by (intros m Hm; apply elem_of_cons; by right).
    destruct (IH w) as (org & noisy & h & k & g & -> & Hda); auto.
    exists org, noisy, h, k, g. split; [reflexivity|].
    by apply drawn_all_skip.
Qed.

(** *** The loop that swaps a snapshot in *)

Lemma redirect_cons_tensor d n a ps f :
  d !! n = Some a ->
  redirect d ((n, true) :: ps) f = redirect d ps (<[n := a]> f).
Proof. intros Hd. unfold redirect. simpl. by rewrite Hd. Qed.

Lemma redirect_cons_skip d n ps f :
  redirect d ((n, false) :: ps) f = redirect d ps f.
Proof. reflexivity. Qed.

Lemma redirect_cons_missing d n ps f :
  d !! n = None ->
  redirect d ((n, true) :: ps) f = redirect d ps f.
Proof. intros Hd. unfold redirect. simpl. by rewrite Hd. Qed.

Lemma redirect_other d ps f n :
  (n, true) ∉ ps -> redirect d ps f n = f n.
Proof.
  revert f. induction ps as [|[m b] ps IH]; intros f Hn; [done|].
  apply not_elem_of_cons in Hn as [Hne Hn].
  destruct b; [|by rewrite redirect_cons_skip, IH].
  destruct (d !! m) as [a|] eqn:Hd.
  - rewrite (redirect_cons_tensor _ _ _ _ _ Hd), IH by done.
    apply fn_lookup_insert_ne. congruence.
  - by rewrite (redirect_cons_missing _ _ _ _ Hd), IH.
Qed.

Lemma redirect_param d ps f n a :
  (n, true) ∈ ps -> d !! n = Some a -> redirect d ps f n = a.
Proof.
  revert f. induction ps as [|[m b] ps IH]; intros f Hn Hd.
  - by apply elem_of_nil in Hn.
  - destruct (decide ((n, true) ∈ ps)) as [Hin|Hout].
    + destruct b; [|by rewrite redirect_cons_skip, IH].
      destruct (d !! m) as [a'|] eqn:Hd'.
      * by rewrite (redirect_cons_tensor _ _ _ _ _ Hd'), IH.
      * by rewrite (redirect_cons_missing _ _ _ _ Hd'), IH.
    + apply elem_of_cons in Hn as [Heq|Hin]; [|done].
      injection Heq as <- <-.
      rewrite (redirect_cons_tensor _ _ _ _ _ Hd), redirect_other by done.
      apply fn_lookup_insert.
Qed.

Lemma swap_in_loop (sel : World -> gmap string addr)
    (ps : list (string * bool)) (w : World) :
  (forall f w0, sel (set_param_storage f w0) = sel w0) ->
  (forall n, (n, true) ∈ ps -> is_Some (sel w !! n)) ->
  for_each ps (swap_in sel) w =
    Ok tt (set_param_storage (redirect (sel w) ps (param_storage w)) w).
Proof.
  intros Hsel. revert w. induction ps as [|[n []] ps IH]; intros w Hall.
  - simpl. by destruct w.
  - destruct (Hall n) as [a Ha]; [apply elem_of_cons; by left|].
    simpl. unfold bind, swap_in, gets, getitem, set_, modify, bind. simpl.
    rewrite Ha. unfold ret. rewrite IH.
    + by rewrite Hsel.
    + intros m Hm. rewrite Hsel. apply Hall. apply elem_of_cons. by right.
  - simpl. unfold bind. simpl. rewrite IH; [done|].
    intros m Hm. apply Hall. apply elem_of_cons. by right.
Qed.

(** When the loop meets a tensor parameter that the dictionary lacks, it
    raises [KeyError]. *)
Lemma swap_in_missing (sel : World -> gmap string addr) (n : string) (w : World) :
  sel w !! n = None ->
  swap_in sel (n, true) w = Raise (KeyError n) w.
Proof.
  intros Hn. unfold swap_in, bind, gets, getitem. simpl. by rewrite Hn.
Qed.

Lemma live_swapped (d : gmap string addr) (w : World) (n : string) (a : addr) :
  is_param w n -> d !! n = Some a -> live (swapped d w) n = storage w a.
Proof.
  intros Hn Hd. unfold live, swapped. simpl.
  by rewrite (redirect_param _ _ _ _ _ Hn Hd).
Qed.

Lemma snapshot_swapped (d d' : gmap string addr) (w : World) (n : string) :
  snapshot (swapped d w) d' n = snapshot w d' n.
Proof. reflexivity. Qed.

Lemma wf_swapped (d : gmap string addr) (w : World) :
  wf w -> complete w d -> allocated w d -> separate d -> wf (swapped d w).
Proof.
  intros Hwf Hcomplete Halloc Hsep. destruct Hwf.
  split; try done.
  - intros n Hn. destruct (Hcomplete n Hn) as [a Ha].
    unfold swapped. simpl. rewrite (redirect_param _ _ _ _ _ Hn Ha).
    by eapply Halloc.
  - intros n m Hn Hm.
    destruct (Hcomplete n Hn) as [a Ha]. destruct (Hcomplete m Hm) as [b Hb].
    unfold swapped. simpl.
    rewrite (redirect_param _ _ _ _ _ Hn Ha), (redirect_param _ _ _ _ _ Hm Hb).
    intros ->. by eapply Hsep.
Qed.

(** *** The branches of the hooks *)

Lemma nonempty_true {V} (d : gmap string V) : d <> ∅ -> nonempty d = true.
Proof. intros Hd. by apply bool_decide_eq_true_2. Qed.

Lemma nonempty_false {V} (d : gmap string V) : d = ∅ -> nonempty d = false.
Proof. intros ->. apply bool_decide_eq_false_2. by intros Hd. Qed.

Lemma draws_noise_true (w : World) (sw : bool * bool) :
  draws_noise w sw = true <->
  sw.1 = true /\ (noisy_params w = ∅ \/ sw.2 = true).
Proof.
  unfold draws_noise, nonempty. destruct sw as [[] []]; simpl;
    try case_bool_decide; naive_solver.
Qed.

Lemma draws_noise_false (w : World) (sw : bool * bool) :
  draws_noise w sw = false <->
  sw.1 = false \/ (noisy_params w <> ∅ /\ sw.2 = false).
Proof.
  unfold draws_noise, nonempty. destruct sw as [[] []]; simpl;
    try case_bool_decide; naive_solver.
Qed.

Lemma perturb_pre_hook_reuse (w : World) :
  perturb_switch w = true -> reset_switch w = false ->
  noisy_params w <> ∅ -> complete w (noisy_params w) ->
  perturb_pre_hook w = Ok tt (swapped (noisy_params w) w).
Proof.
  intros Hp Hr Hne Hcomplete.
  unfold perturb_pre_hook, perturb_pre_hook_with, bind, gets.
  rewrite Hp, Hr, (nonempty_true _ Hne). simpl.
  by rewrite swap_in_loop.
Qed.

Lemma perturb_pre_hook_draw (w : World) :
  perturb_switch w = true ->
  noisy_params w = ∅ \/ reset_switch w = true ->
  perturb_pre_hook w =
    for_each (named_parameters w) (draw_noise perturb_gen) (cleared w).
Proof.
  intros Hp Hbranch.
  unfold perturb_pre_hook, perturb_pre_hook_with, bind, gets.
  rewrite Hp.
  destruct Hbranch as [Hempty|Hr].
  - by rewrite (nonempty_false _ Hempty).
  - rewrite Hr. by rewrite andb_false_r.
Qed.

Lemma perturb_pre_hook_restore (w : World) :
  perturb_switch w = false ->
  org_params w <> ∅ -> complete w (org_params w) ->
  perturb_pre_hook w = Ok tt (swapped (org_params w) w).
Proof.
  intros Hp Hne Hcomplete.
  unfold perturb_pre_hook, perturb_pre_hook_with, bind, gets.
  rewrite Hp. simpl. rewrite Hp. simpl. rewrite (nonempty_true _ Hne).
  by rewrite swap_in_loop.
Qed.

Lemma perturb_pre_hook_noop (w : World) :
  perturb_switch w = false -> org_params w = ∅ ->
  perturb_pre_hook w = Ok tt w.
Proof.
  intros Hp Hempty.
  unfold perturb_pre_hook, perturb_pre_hook_with, bind, gets.
  rewrite Hp. simpl. rewrite Hp. simpl. by rewrite (nonempty_false _ Hempty).
Qed.

Lemma perturb_post_hook_restore (w : World) :
  org_params w <> ∅ -> complete w (org_params w) ->
  perturb_post_hook w = Ok tt (swapped (org_params w) w).
Proof.
  intros Hne Hcomplete. unfold perturb_post_hook, bind, gets.
  rewrite (nonempty_true _ Hne). by rewrite swap_in_loop.
Qed.

Lemma perturb_post_hook_noop (w : World) :
  org_params w = ∅ -> perturb_post_hook w = Ok tt w.
Proof.
  intros Hempty. unfold perturb_post_hook, bind, gets.
  by rewrite (nonempty_false _ Hempty).
Qed.

(** *** Well-formedness is kept *)

Lemma wf_redrawn (w : World) org noisy h k g :
  wf w ->
  drawn_all (named_parameters w) (cleared w) org noisy h k ->
  wf (redrawn org noisy h k g w).
Proof.
  intros Hwf Hda. destruct Hwf.
  destruct Hda as [Hmark Hframe Horg Hnoisy Hsum Hothers Hosep Hnsep].
  simpl in *.
  assert (Horg_only : forall n a, org !! n = Some a -> is_param w n).
  { intros n a Ha. destruct (decide ((n, true) ∈ named_parameters w)); [done|].
    destruct (Hothers n) as [Ho _]; [done|]. by rewrite Ho in Ha. }
  assert (Hnoisy_only : forall n a, noisy !! n = Some a -> is_param w n).
  { intros n a Ha. destruct (decide ((n, true) ∈ named_parameters w)); [done|].
    destruct (Hothers n) as [_ Hn]; [done|]. by rewrite Hn in Ha. }
  split; simpl; try done.
  - intros n Hn. specialize (wf_param_allocated0 n Hn). lia.
  - destruct (decide (org = ∅)) as [->|Hne].
    + left. split; [done|]. apply map_empty. intros n.
      destruct (noisy !! n) as [b|] eqn:Hb; [|done].
      destruct (Horg n (Hnoisy_only n b Hb)) as (a & Ha & _).
      by rewrite lookup_empty in Ha.
    + right. split; [done|].
      assert (Hcomplete : complete (redrawn org noisy h k g w) noisy).
      { intros n Hn. destruct (Hnoisy n Hn) as (b & Hb & _). by exists b. }
      split; [|split; [|done]].
      * intros ->. apply Hne. apply map_empty. intros n.
        destruct (org !! n) as [a|] eqn:Ha; [|done].
        destruct (Hnoisy n (Horg_only n a Ha)) as (b & Hb & _).
        by rewrite lookup_empty in Hb.
      * intros n Hn. destruct (Horg n Hn) as (a & Ha & _). by exists a.
  - intros n a Ha. destruct (Horg n (Horg_only n a Ha)) as (a' & Ha' & Hrange & _).
    simplify_eq. simpl. lia.
  - intros n m a Hn Hm.
    apply (Hosep n m a); [by eapply Horg_only | by eapply Horg_only | done..].
  - intros n a Ha.
    destruct (Hnoisy n (Hnoisy_only n a Ha)) as (a' & Ha' & Hrange & _).
    simplify_eq. simpl. lia.
  - intros n m a Hn Hm.
    apply (Hnsep n m a); [by eapply Hnoisy_only | by eapply Hnoisy_only | done..].
Qed.

Lemma wf_set_switches (w : World) (p r : bool) :
  wf w -> wf (set_reset_switch r (set_perturb_switch p w)).
Proof. intros Hwf. by destruct Hwf. Qed.

(** In a well-formed world a dictionary that is not empty is complete. *)
Lemma wf_org_complete (w : World) :
  wf w -> org_params w <> ∅ -> complete w (org_params w).
Proof. intros Hwf Hne. destruct (wf_snapshots w Hwf) as [[? ?]|(?&?&?&?)]; done. Qed.

Lemma wf_noisy_complete (w : World) :
  wf w -> noisy_params w <> ∅ -> complete w (noisy_params w).
Proof. intros Hwf Hne. destruct (wf_snapshots w Hwf) as [[? ?]|(?&?&?&?)]; done. Qed.

Lemma wf_org_empty_iff (w : World) :
  wf w -> org_params w = ∅ <-> noisy_params w = ∅.
Proof.
  intros Hwf. destruct (wf_snapshots w Hwf) as [[? ?]|(?&?&?&?)]; naive_solver.
Qed.

(** *** The branch that draws noise *)

Lemma perturb_pre_hook_draw_spec (w w' : World) :
  wf w ->
  perturb_switch w = true ->
  noisy_params w = ∅ \/ reset_switch w = true ->
  perturb_pre_hook w = Ok tt w' ->
  exists org noisy h k g,
    w' = redrawn org noisy h k g w
    /\ drawn_all (named_parameters w) (cleared w) org noisy h k.
Proof.
  intros Hwf Hp Hbranch Hrun.
  rewrite (perturb_pre_hook_draw w Hp Hbranch) in Hrun.
  destruct Hwf.
  apply draw_noise_loop_spec in Hrun; try done.
Qed.

Lemma perturb_pre_hook_draw_returns (w : World) :
  conforms ->
  perturb_switch w = true ->
  noisy_params w = ∅ \/ reset_switch w = true ->
  exists w', perturb_pre_hook w = Ok tt w'.
Proof.
  intros Hconf Hp Hbranch.
  rewrite (perturb_pre_hook_draw w Hp Hbranch).
  by apply draw_noise_loop_returns.
Qed.

(** After the draw the original snapshot holds the values the parameters
    had, and the noisy snapshot the values they have. *)
Lemma drawn_all_snapshots (w : World) org noisy h k g (n : string) :
  drawn_all (named_parameters w) (cleared w) org noisy h k ->
  is_param w n ->
  snapshot (redrawn org noisy h k g w) org n = Some (live w n)
  /\ snapshot (redrawn org noisy h k g w) noisy n
     = Some (live (redrawn org noisy h k g w) n).
Proof.
  intros Hda Hn. unfold snapshot, live. simpl.
  destruct (da_org _ _ _ _ _ _ Hda n Hn) as (a & -> & _ & Ha).
  destruct (da_noisy _ _ _ _ _ _ Hda n Hn) as (b & -> & _ & Hb).
  simpl in *. by rewrite Ha, Hb.
Qed.

(** In a well-formed world, with a conforming noise source, the pre hook
    returns, and the world stays well-formed with the same parameters. *)
Lemma perturb_pre_hook_returns (w : World) :
  wf w -> conforms ->
  exists w', perturb_pre_hook w = Ok tt w'
    /\ wf w' /\ named_parameters w' = named_parameters w
    /\ reset_hooks w' = reset_hooks w.
Proof.
  intros Hwf Hconf.
  destruct (perturb_switch w) eqn:Hp.
  - destruct (decide (noisy_params w = ∅)) as [Hempty|Hne];
      [|destruct (reset_switch w) eqn:Hr].
    + destruct (perturb_pre_hook_draw_returns w) as [w' Hrun]; auto.
      exists w'. split; [done|].
      apply perturb_pre_hook_draw_spec in Hrun
        as (org & noisy & h & k & g & -> & Hda); auto.
      split; [by apply wf_redrawn|done].
    + destruct (perturb_pre_hook_draw_returns w) as [w' Hrun]; auto.
      exists w'. split; [done|].
      apply perturb_pre_hook_draw_spec in Hrun
        as (org & noisy & h & k & g & -> & Hda); auto.
      split; [by apply wf_redrawn|done].
    + exists (swapped (noisy_params w) w).
      split; [apply perturb_pre_hook_reuse; auto using wf_noisy_complete|].
      split; [|done].
      apply wf_swapped; auto using wf_noisy_complete.
      * by apply wf_noisy_allocated.
      * by apply wf_noisy_separate.
  - destruct (decide (org_params w = ∅)) as [Hempty|Hne].
    + exists w. split; [by apply perturb_pre_hook_noop|done].
    + exists (swapped (org_params w) w).
      split; [apply perturb_pre_hook_restore; auto using wf_org_complete|].
      split; [|done].
      apply wf_swapped; auto using wf_org_complete.
      * by apply wf_org_allocated.
      * by apply wf_org_separate.
Qed.

(** The post hook returns in every well-formed world. *)
Lemma perturb_post_hook_returns (w : World) :
  wf w ->
  exists w', perturb_post_hook w = Ok tt w'
    /\ wf w' /\ named_parameters w' = named_parameters w
    /\ org_params w' = org_params w /\ noisy_params w' = noisy_params w
    /\ storage w' = storage w /\ reset_hooks w' = reset_hooks w
    /\ forall n a, is_param w n -> org_params w !! n = Some a ->
         live w' n = storage w a.
Proof.
  intros Hwf.
  destruct (decide (org_params w = ∅)) as [Hempty|Hne].
  - exists w. split; [by apply perturb_post_hook_noop|].
    split_and!; try done.
    intros n a _ Ha. by rewrite Hempty, lookup_empty in Ha.
  - exists (swapped (org_params w) w).
    split; [apply perturb_post_hook_restore; auto using wf_org_complete|].
    split.
    { apply wf_swapped; auto using wf_org_complete.
      - by apply wf_org_allocated.
      - by apply wf_org_separate. }
    split_and!; try done.
    intros n a Hn Ha. by apply live_swapped.
Qed.

(** In a session [reset()] is one call of the post hook. *)
Lemma reset_unfold (w : World) :
  reset_hooks w = [PerturbPostHook] -> reset w = perturb_post_hook w.
Proof.
  intros Hhooks. unfold reset, bind, gets. rewrite Hhooks. simpl.
  unfold bind. destruct (perturb_post_hook w) as [[] w'|e w']; reflexivity.
Qed.

(** C5: with perturbation on, resampling off and a noisy snapshot cached,
    the pre hook gives every tensor parameter its cached noisy value and
    draws nothing: the random state, the cells and both snapshots are as
    before. Hence two calls in a row under these switches leave the same
    values in the parameters after the second as after the first, whether
    the first drew the noise or used the cache. *)
Theorem pre_evaluate_reuses_cache (w : World) :
  wf w -> perturb_switch w = true -> reset_switch w = false ->
  (noisy_params w <> ∅ ->
   exists w',
     perturb_pre_hook w = Ok tt w'
     /\ (forall n, is_param w n ->
           Some (live w' n) = snapshot w (noisy_params w) n)
     /\ rng_state w' = rng_state w
     /\ storage w' = storage w
     /\ next_storage w' = next_storage w
     /\ org_params w' = org_params w
     /\ noisy_params w' = noisy_params w)
  /\ (conforms ->
      exists w1 w2,
        perturb_pre_hook w = Ok tt w1
        /\ perturb_pre_hook w1 = Ok tt w2
        /\ forall n, is_param w n -> live w2 n = live w1 n).
Proof.
  intros Hwf Hp Hr.
  assert (Hreuse : forall w0, wf w0 -> perturb_switch w0 = true ->
            reset_switch w0 = false -> noisy_params w0 <> ∅ ->
            perturb_pre_hook w0 = Ok tt (swapped (noisy_params w0) w0)
            /\ forall n, is_param w0 n ->
                 Some (live (swapped (noisy_params w0) w0) n)
                 = snapshot w0 (noisy_params w0) n).
  { intros w0 Hwf0 Hp0 Hr0 Hne0.
    pose proof (wf_noisy_complete w0 Hwf0 Hne0) as Hcomplete.
    split; [by apply perturb_pre_hook_reuse|].
    intros n Hn. destruct (Hcomplete n Hn) as [b Hb].
    unfold snapshot. rewrite Hb. simpl. f_equal. by apply live_swapped. }
  split.
  - intros Hne. destruct (Hreuse w Hwf Hp Hr Hne) as [Hrun Hlive].
    exists (swapped (noisy_params w) w). by split_and!.
  - intros Hconf.
    destruct (decide (noisy_params w = ∅)) as [Hempty|Hne].
    + destruct (perturb_pre_hook_draw_returns w) as [w1 Hrun1]; auto.
      exists w1.
      pose proof Hrun1 as Hspec.
      apply perturb_pre_hook_draw_spec in Hspec
        as (org & noisy & h & k & g & -> & Hda); auto.
      set (w1 := redrawn org noisy h k g w) in *.
      assert (Hwf1 : wf w1) by (by apply wf_redrawn).
      destruct (decide (noisy = ∅)) as [Hnone|Hsome].
      * destruct (perturb_pre_hook_returns w1 Hwf1 Hconf) as (w2 & Hrun2 & _).
        exists w2. split; [done|]. split; [done|].
        intros n Hn. destruct (da_noisy _ _ _ _ _ _ Hda n Hn) as (b & Hb & _).
        by rewrite Hnone, lookup_empty in Hb.
      * destruct (Hreuse w1 Hwf1 Hp Hr Hsome) as [Hrun2 Hlive].
        exists (swapped (noisy_params w1) w1). split; [done|]. split; [done|].
        intros n Hn. specialize (Hlive n Hn).
        destruct (drawn_all_snapshots w org noisy h k g n Hda Hn) as [_ Hnoisy].
        fold w1 in Hnoisy. simpl in Hlive. rewrite Hnoisy in Hlive.
        by injection Hlive.
    + destruct (Hreuse w Hwf Hp Hr Hne) as [Hrun1 Hlive1].
      set (w1 := swapped (noisy_params w) w) in *.
      assert (Hwf1 : wf w1).
      { apply wf_swapped; auto using wf_noisy_complete.
        - by apply wf_noisy_allocated.
        - by apply wf_noisy_separate. }
      destruct (Hreuse w1 Hwf1 Hp Hr Hne) as [Hrun2 Hlive2].
      exists w1, (swapped (noisy_params w1) w1). split; [done|]. split; [done|].
      intros n Hn. specialize (Hlive1 n Hn). specialize (Hlive2 n Hn).
      change (snapshot w1 (noisy_params w1) n)
        with (snapshot w (noisy_params w) n) in Hlive2.
      rewrite <- Hlive1 in Hlive2. by injection Hlive2.
Qed.

(** C6: with perturbation off, when an original snapshot exists the pre
    hook gives every tensor parameter the value of its original snapshot,
    and both snapshot dictionaries and every cell are as before; when no
    snapshot exists the world is unchanged. *)
Theorem pre_evaluate_disabled (w : World) :
  perturb_switch w = false ->
  (wf w -> org_params w <> ∅ ->
   exists w',
     perturb_pre_hook w = Ok tt w'
     /\ (forall n, is_param w n ->
           Some (live w' n) = snapshot w (org_params w) n)
     /\ org_params w' = org_params w
     /\ noisy_params w' = noisy_params w
     /\ storage w' = storage w
     /\ (forall n, snapshot w' (org_params w') n = snapshot w (org_params w) n)
     /\ (forall n, snapshot w' (noisy_params w') n
                   = snapshot w (noisy_params w) n))
  /\ (org_params w = ∅ -> perturb_pre_hook w = Ok tt w).
Proof.
  intros Hp. split.
  - intros Hwf Hne. pose proof (wf_org_complete w Hwf Hne) as Hcomplete.
    exists (swapped (org_params w) w).
    split; [by apply perturb_pre_hook_restore|].
    split_and!; try done.
    intros n Hn. destruct (Hcomplete n Hn) as [a Ha].
    unfold snapshot. rewrite Ha. simpl. f_equal. by apply live_swapped.
  - intros Hempty. by apply perturb_pre_hook_noop.
Qed.

(** C8: when no original snapshot exists the post hook, like [reset()],
    raises nothing and leaves the world unchanged. Two calls in a row
    return, and after the second every parameter holds the value it held
    after the first. *)
Theorem perturb_post_hook_idempotent (w : World) :
  reset_hooks w = [PerturbPostHook] ->
  (org_params w = ∅ ->
   perturb_post_hook w = Ok tt w /\ reset w = Ok tt w)
  /\ (wf w ->
      exists w1 w2,
        perturb_post_hook w = Ok tt w1
        /\ reset w = Ok tt w1
        /\ perturb_post_hook w1 = Ok tt w2
        /\ reset w1 = Ok tt w2
        /\ (forall n, is_param w n -> live w2 n = live w1 n)
        /\ storage w2 = storage w1).
Proof.
  intros Hhooks. split.
  - intros Hempty. rewrite (reset_unfold w Hhooks).
    split; by apply perturb_post_hook_noop.
  - intros Hwf.
    destruct (perturb_post_hook_returns w Hwf)
      as (w1 & Hrun1 & Hwf1 & Hps1 & Horg1 & Hnoisy1 & Hst1 & Hhooks1 & Hlive1).
    destruct (perturb_post_hook_returns w1 Hwf1)
      as (w2 & Hrun2 & Hwf2 & Hps2 & Horg2 & Hnoisy2 & Hst2 & Hhooks2 & Hlive2).
    exists w1, w2. rewrite (reset_unfold w Hhooks).
    rewrite (reset_unfold w1) by congruence.
    split_and!; try done.
    intros n Hn.
    destruct (decide (org_params w = ∅)) as [Hempty|Hne].
    + rewrite (perturb_post_hook_noop w Hempty) in Hrun1.
      injection Hrun1 as <-.
      rewrite (perturb_post_hook_noop w Hempty) in Hrun2.
      by injection Hrun2 as <-.
    + destruct (wf_org_complete w Hwf Hne n Hn) as [a Ha].
      rewrite (Hlive1 n a Hn Ha).
      rewrite (Hlive2 n a); [by rewrite Hst1| |by rewrite Horg1].
      unfold is_param. by rewrite Hps1.
Qed.

(** *** Sequences of calls *)

Lemma pre_evaluate_unfold (sw : bool * bool) (w : World) :
  pre_evaluate sw w = perturb_pre_hook (switched sw w).
Proof. reflexivity. Qed.

Lemma wf_switched (sw : bool * bool) (w : World) : wf w -> wf (switched sw w).
Proof. apply wf_set_switches. Qed.

Lemma pre_evaluate_returns (sw : bool * bool) (w : World) :
  wf w -> conforms ->
  exists w', pre_evaluate sw w = Ok tt w'
    /\ wf w' /\ named_parameters w' = named_parameters w.
Proof.
  intros Hwf Hconf. rewrite pre_evaluate_unfold.
  destruct (perturb_pre_hook_returns (switched sw w))
    as (w' & Hrun & Hwf' & Hps & _); auto using wf_switched.
  by exists w'.
Qed.

Lemma pre_evaluates_return (acts : list (bool * bool)) (w : World) :
  wf w -> conforms ->
  exists w', for_each acts pre_evaluate w = Ok tt w'
    /\ wf w' /\ named_parameters w' = named_parameters w.
Proof.
  intros Hwf Hconf. revert w Hwf.
  induction acts as [|sw acts IH]; intros w Hwf.
  - by exists w.
  - destruct (pre_evaluate_returns sw w Hwf Hconf) as (w1 & Hrun1 & Hwf1 & Hps1).
    destruct (IH w1 Hwf1) as (w' & Hrun & Hwf' & Hps).
    exists w'. simpl. rewrite (bind_ok _ _ _ _ _ Hrun1).
    split; [done|]. split; [done|]. congruence.
Qed.

(** A call that draws noise leaves in the original snapshot the values the
    parameters held before the call. *)
Lemma pre_evaluate_draw_original (sw : bool * bool) (w w' : World) :
  wf w -> draws_noise w sw = true ->
  pre_evaluate sw w = Ok tt w' ->
  holds_original (live w) w'.
Proof.
  intros Hwf [Hp Hbranch]%draws_noise_true Hrun.
  rewrite pre_evaluate_unfold in Hrun.
  apply perturb_pre_hook_draw_spec in Hrun
    as (org & noisy & h & k & g & -> & Hda); auto using wf_switched.
  intros n Hn.
  by destruct (drawn_all_snapshots (switched sw w) org noisy h k g n Hda Hn).
Qed.

(** A call in which the two switches are not both on keeps the values of
    the original snapshot. *)
Lemma pre_evaluate_keeps_original (V : string -> tensor) (sw : bool * bool)
    (w w' : World) :
  wf w -> holds_original V w ->
  sw.1 && sw.2 = false ->
  pre_evaluate sw w = Ok tt w' ->
  holds_original V w'.
Proof.
  intros Hwf Hold Hsw Hrun. rewrite pre_evaluate_unfold in Hrun.
  pose proof (wf_switched sw w Hwf) as Hwf0.
  destruct sw as [[] r]; simpl in Hsw.
  - subst r. destruct (decide (noisy_params w = ∅)) as [Hempty|Hne].
    + assert (Horg : org_params w = ∅) by (by apply wf_org_empty_iff).
      apply perturb_pre_hook_draw_spec in Hrun
        as (org & noisy & h & k & g & -> & Hda); auto.
      intros n Hn. specialize (Hold n Hn).
      unfold snapshot in Hold. by rewrite Horg, lookup_empty in Hold.
    + rewrite perturb_pre_hook_reuse in Hrun; [|done..|].
      * by injection Hrun as <-.
      * by apply (wf_noisy_complete (switched (true, false) w)).
  - destruct (decide (org_params w = ∅)) as [Hempty|Hne].
    + rewrite perturb_pre_hook_noop in Hrun by done. by injection Hrun as <-.
    + rewrite perturb_pre_hook_restore in Hrun; [|done..|].
      * by injection Hrun as <-.
      * by apply (wf_org_complete (switched (false, r) w)).
Qed.

Lemma pre_evaluates_keep_original (V : string -> tensor)
    (acts : list (bool * bool)) (w : World) :
  wf w -> conforms -> holds_original V w ->
  Forall (fun sw => sw.1 && sw.2 = false) acts ->
  exists w', for_each acts pre_evaluate w = Ok tt w'
    /\ wf w' /\ named_parameters w' = named_parameters w
    /\ holds_original V w'.
Proof.
  intros Hwf Hconf Hold Hacts. revert w Hwf Hold.
  induction Hacts as [|sw acts Hsw Hacts IH]; intros w Hwf Hold.
  - by exists w.
  - destruct (pre_evaluate_returns sw w Hwf Hconf) as (w1 & Hrun1 & Hwf1 & Hps1).
    pose proof (pre_evaluate_keeps_original V sw w w1 Hwf Hold Hsw Hrun1) as Hold1.
    destruct (IH w1 Hwf1 Hold1) as (w' & Hrun & Hwf' & Hps & Hold').
    exists w'. simpl. rewrite (bind_ok _ _ _ _ _ Hrun1).
    split; [done|]. split; [done|]. split; [congruence|done].
Qed.

(** The post hook gives the parameters the values of the original
    snapshot. *)
Lemma perturb_post_hook_original (V : string -> tensor) (w : World) :
  wf w -> holds_original V w ->
  exists w', perturb_post_hook w = Ok tt w'
    /\ forall n, is_param w n -> live w' n = V n.
Proof.
  intros Hwf Hold.
  destruct (perturb_post_hook_returns w Hwf) as (w' & Hrun & _ & _ & _ & _ & _ & _ & Hlive).
  exists w'. split; [done|]. intros n Hn. specialize (Hold n Hn).
  unfold snapshot in Hold.
  destruct (org_params w !! n) as [a|] eqn:Ha; [|done].
  rewrite (Hlive n a Hn Ha). simpl in Hold. by injection Hold.
Qed.

(** From the start of a session, calls that never ask for a resample keep
    the first values: in the parameters while nothing is drawn, in the
    original snapshot afterwards. *)
Lemma pre_evaluates_from_start (acts : list (bool * bool)) (w : World) :
  wf w -> conforms -> org_params w = ∅ ->
  Forall (fun sw => sw.2 = false) acts ->
  exists w', for_each acts pre_evaluate w = Ok tt w'
    /\ wf w' /\ named_parameters w' = named_parameters w
    /\ ((org_params w' = ∅ /\ forall n, live w' n = live w n)
        \/ holds_original (live w) w').
Proof.
  intros Hwf Hconf Horg Hacts. revert w Hwf Horg.
  induction Hacts as [|[p r] acts Hsw Hacts IH]; intros w Hwf Horg.
  - exists w. split_and!; try done. by left.
  - simpl in Hsw. subst r. destruct p.
    + destruct (pre_evaluate_returns (true, false) w Hwf Hconf)
        as (w1 & Hrun1 & Hwf1 & Hps1).
      assert (Hdraw : draws_noise w (true, false) = true).
      { apply draws_noise_true. split; [done|]. left. by apply wf_org_empty_iff. }
      pose proof (pre_evaluate_draw_original _ _ _ Hwf Hdraw Hrun1) as Hold1.
      destruct (pre_evaluates_keep_original (live w) acts w1)
        as (w' & Hrun & Hwf' & Hps & Hold'); auto.
      { eapply list.Forall_impl; [exact Hacts|]. intros [p r] Hr. simpl in *.
        subst r. apply andb_false_r. }
      exists w'. simpl. rewrite (bind_ok _ _ _ _ _ Hrun1).
      split_and!; try done; [congruence|by right].
    + assert (Hrun1 : pre_evaluate (false, false) w
                      = Ok tt (switched (false, false) w)).
      { rewrite pre_evaluate_unfold. by apply perturb_pre_hook_noop. }
      destruct (IH (switched (false, false) w))
        as (w' & Hrun & Hwf' & Hps & Hkeep); auto using wf_switched.
      exists w'. simpl. rewrite (bind_ok _ _ _ _ _ Hrun1).
      by split_and!.
Qed.

(** C1, as the code has it: after any sequence of [pre_evaluate] calls the
    post hook gives every tensor parameter the value it held just before
    the last call that drew fresh noise, that is, a drawing call after
    which no call has both switches on. From the start of a session, when
    no call asks for a resample, this is the value held before the first
    [pre_evaluate]. The noise source conforms, so that every call returns.
    (A call that draws again takes the noisy values as the new
    originals.) *)
Theorem post_evaluate_restores (w0 : World) :
  wf w0 -> conforms ->
  (forall acts1 sw acts2 w1,
     for_each acts1 pre_evaluate w0 = Ok tt w1 ->
     draws_noise w1 sw = true ->
     Forall (fun sw' => sw'.1 && sw'.2 = false) acts2 ->
     exists w',
       (for_each (acts1 ++ sw :: acts2) pre_evaluate ;; perturb_post_hook) w0
       = Ok tt w'
       /\ forall n, is_param w0 n -> live w' n = live w1 n)
  /\ (forall acts,
      org_params w0 = ∅ ->
      Forall (fun sw => sw.2 = false) acts ->
      exists w',
        (for_each acts pre_evaluate ;; perturb_post_hook) w0 = Ok tt w'
        /\ forall n, is_param w0 n -> live w' n = live w0 n).
Proof.
  intros Hwf Hconf. split.
  - intros acts1 sw acts2 w1 Hrun1 Hdraw Hacts2.
    destruct (pre_evaluates_return acts1 w0 Hwf Hconf) as (w1' & Hrun1' & Hwf1 & Hps1).
    rewrite Hrun1 in Hrun1'. injection Hrun1' as <-.
    destruct (pre_evaluate_returns sw w1 Hwf1 Hconf) as (w2 & Hrun2 & Hwf2 & Hps2).
    pose proof (pre_evaluate_draw_original _ _ _ Hwf1 Hdraw Hrun2) as Hold2.
    destruct (pre_evaluates_keep_original (live w1) acts2 w2)
      as (w3 & Hrun3 & Hwf3 & Hps3 & Hold3); auto.
    destruct (perturb_post_hook_original (live w1) w3 Hwf3 Hold3)
      as (w' & Hpost & Hlive).
    exists w'. split.
    + unfold bind at 1. rewrite for_each_app. rewrite (bind_ok _ _ _ _ _ Hrun1).
      simpl. rewrite (bind_ok _ _ _ _ _ Hrun2). by rewrite Hrun3.
    + intros n Hn. apply Hlive. unfold is_param in *. congruence.
  - intros acts Horg Hacts.
    destruct (pre_evaluates_from_start acts w0 Hwf Hconf Horg Hacts)
      as (w1 & Hrun1 & Hwf1 & Hps1 & Hkeep).
    rewrite (bind_ok _ _ _ _ _ Hrun1).
    destruct Hkeep as [[Hempty Hlive]|Hold].
    + exists w1. split; [by apply perturb_post_hook_noop|]. auto.
    + destruct (perturb_post_hook_original (live w0) w1 Hwf1 Hold)
        as (w' & Hpost & Hlive).
      exists w'. split; [done|]. intros n Hn. apply Hlive.
      unfold is_param in *. congruence.
Qed.

(** *** A rejected sample *)

Lemma live_rejected (n : string) (g : rng) (w : World) (m : string) :
  param_storage w m < next_storage w ->
  live (rejected n g w) m = live w m.
Proof.
  intros Hm. unfold live. simpl. apply fn_lookup_insert_ne. lia.
Qed.

(** C9: in the branch that draws noise, when the parameters before the
    k-th have been processed and the sample drawn for the k-th is rejected
    by the in-place addition, the pre hook raises; nothing is rolled back:
    each parameter before the k-th keeps the sum of its value and of its
    sample, the k-th and the later ones hold their values unchanged. The
    k-th has an original snapshot and no noisy one. *)
Theorem pre_evaluate_rejected_sample (w w1 : World)
    (pre post : list (string * bool)) (n : string) :
  wf w ->
  perturb_switch w = true ->
  noisy_params w = ∅ \/ reset_switch w = true ->
  named_parameters w = pre ++ (n, true) :: post ->
  for_each pre (draw_noise perturb_gen) (cleared w) = Ok tt w1 ->
  tensor_iadd (live w n) (sample_for w1 (live w n)).1 = None ->
  exists w2,
    perturb_pre_hook w = Raise RuntimeError w2
    /\ (forall m, (m, true) ∈ pre ->
          live w2 m = live w1 m
          /\ exists g,
               tensor_iadd (live w m)
                 (sample g (get_dev (param_noise_spec w))
                    (tensor_shape (live w m)) (tensor_device (live w m))).1
               = Some (live w2 m))
    /\ (forall m, (m, true) ∈ (n, true) :: post -> live w2 m = live w m)
    /\ (forall m, (m, true) ∈ pre \/ m = n -> is_Some (org_params w2 !! m))
    /\ noisy_params w2 !! n = None.
Proof.
  intros Hwf Hp Hbranch Hps Hrun1 Hreject.
  pose proof (wf_names w Hwf) as Hnodup.
  rewrite Hps, fmap_app, fmap_cons in Hnodup. simpl in Hnodup.
  apply list.NoDup_app in Hnodup as (Hnodup_pre & Hdisj & Hnodup_post).
  assert (Hin_pre : forall m, (m, true) ∈ pre -> is_param w m).
  { intros m Hm. unfold is_param. rewrite Hps. apply elem_of_app. by left. }
  assert (Hin_post : forall m, (m, true) ∈ (n, true) :: post -> is_param w m).
  { intros m Hm. unfold is_param. rewrite Hps. apply elem_of_app. by right. }
  assert (Hapart : forall m m', (m, true) ∈ pre -> (m', true) ∈ (n, true) :: post ->
            param_storage w m <> param_storage w m').
  { intros m m' Hm Hm' Heq.
    apply (wf_param_separate w Hwf) in Heq; auto. subst m'.
    apply (Hdisj m); [by eapply elem_of_names|].
    change (m ∈ ((n, true) :: post).*1). by eapply elem_of_names. }
  pose proof Hrun1 as Hspec.
  apply draw_noise_loop_spec in Hspec
    as (org & noisy & h & k & g & -> & Hda); try done; cycle 1.
  { intros m Hm. by apply (wf_param_allocated w Hwf), Hin_pre. }
  { intros m m' Hm Hm'. apply (wf_param_separate w Hwf); by apply Hin_pre. }
  set (w1 := redrawn org noisy h k g (cleared w)) in *.
  assert (Hlater : forall m, (m, true) ∈ (n, true) :: post -> live w1 m = live w m).
  { intros m Hm. unfold live. simpl.
    rewrite (da_frame _ _ _ _ _ _ Hda); [done| |].
    - by apply (wf_param_allocated w Hwf), Hin_post.
    - intros m' Hm'. simpl. by apply Hapart. }
  assert (Hn : (n, true) ∈ (n, true) :: post) by (apply elem_of_cons; by left).
  assert (Hbelow : forall m, is_param w m -> param_storage w1 m < next_storage w1).
  { intros m Hm. simpl. pose proof (wf_param_allocated w Hwf m Hm).
    pose proof (da_mark _ _ _ _ _ _ Hda). simpl in *. lia. }
  exists (rejected n (sample_for w1 (live w n)).2 w1).
  split; [|split; [|split; [|split]]].
  - rewrite (perturb_pre_hook_draw w Hp Hbranch), Hps, for_each_app.
    rewrite (bind_ok _ _ _ _ _ Hrun1).
    simpl. unfold bind. rewrite draw_noise_unfold.
    rewrite (Hlater n Hn), Hreject. reflexivity.
  - intros m Hm. rewrite live_rejected by (by apply Hbelow, Hin_pre).
    split; [done|].
    destruct (da_sum _ _ _ _ _ _ Hda m Hm) as (g' & Hg'). by exists g'.
  - intros m Hm. rewrite live_rejected by (by apply Hbelow, Hin_post).
    by apply Hlater.
  - intros m [Hm| ->]; simpl.
    + destruct (da_org _ _ _ _ _ _ Hda m Hm) as (a & Ha & _).
      destruct (decide (n = m)) as [->|Hne].
      * rewrite lookup_insert_eq. by eexists.
      * rewrite lookup_insert_ne by done. by eexists.
    + rewrite lookup_insert_eq. by eexists.
  - simpl. destruct (da_others _ _ _ _ _ _ Hda n) as [_ Hnone]; [|done].
    intros Hin. apply (Hdisj n); [by eapply elem_of_names|].
    apply elem_of_cons. by left.
Qed.

(** *** The session *)

Lemma perturb_model_unfold (desired : float) (w : World) :
  perturb_model desired w = Ok tt (session desired w).
Proof. reflexivity. Qed.

Lemma wf_session (desired : float) (w : World) :
  wf w -> wf (session desired w).
Proof.
  intros Hwf. destruct Hwf. split; try done.
  by left.
Qed.

Lemma wf_set_tmp_action (d : gmap string tensor) (w : World) :
  wf w -> wf (set_tmp_action d w).
Proof. intros Hwf. by destruct Hwf. Qed.

(** C2, as the code has it: [perturb_model] registers the pre hook as the
    pre-evaluation callback and the adjust hook, alone, as the
    post-evaluation callback; the post hook is kept for [reset()] and is
    on no registry of the model. So an evaluation with perturbation on
    returns the output of the noisy parameters, records it as the
    with-noise output and leaves the parameters noisy, the original
    snapshot holding the former values; [reset()] then gives the parameters
    their former values back. *)
Theorem perturb_model_registers (w : World) (desired : float) (x : input)
    (r : bool) :
  wf w -> conforms ->
  forward_pre_hooks w = [] -> forward_hooks w = [] ->
  exists s output w2 w3,
    perturb_model desired w = Ok tt s
    /\ forward_pre_hooks s = [(S (next_handle w), PerturbPreHook)]
    /\ forward_hooks s = [(next_handle w, PerturbAdjustHook)]
    /\ reset_hooks s = [PerturbPostHook]
    /\ call_model x (switched (true, r) s) = Ok output w2
    /\ output = forward (live w2) x
    /\ tmp_action w2 !! "with_noise" = Some output
    /\ (forall n, is_param w n ->
          snapshot w2 (org_params w2) n = Some (live w n)
          /\ snapshot w2 (noisy_params w2) n = Some (live w2 n)
          /\ exists g,
               tensor_iadd (live w n)
                 (sample g default_initial_stddev
                    (tensor_shape (live w n)) (tensor_device (live w n))).1
               = Some (live w2 n))
    /\ reset w2 = Ok tt w3
    /\ forall n, is_param w n -> live w3 n = live w n.
Proof.
  intros Hwf Hconf Hpre Hpost.
  set (s0 := switched (true, r) (session desired w)).
  assert (Hwf0 : wf s0) by (by apply wf_switched, wf_session).
  assert (Hbranch : noisy_params s0 = ∅ \/ reset_switch s0 = true) by (by left).
  destruct (perturb_pre_hook_draw_returns s0 Hconf eq_refl Hbranch) as [w1 Hrun1].
  pose proof Hrun1 as Hspec.
  apply perturb_pre_hook_draw_spec in Hspec
    as (org & noisy & h & k & g & -> & Hda); auto.
  set (w1 := redrawn org noisy h k g s0) in *.
  set (output := forward (live w1) x).
  set (w2 := set_tmp_action (<["with_noise" := output]> ∅) w1).
  assert (Hwf2 : wf w2).
  { apply wf_set_tmp_action. by apply wf_redrawn. }
  assert (Hold : holds_original (live w) w2).
  { intros n Hn.
    by destruct (drawn_all_snapshots s0 org noisy h k g n Hda Hn). }
  destruct (perturb_post_hook_original (live w) w2 Hwf2 Hold) as (w3 & Hrun3 & Hlive3).
  exists (session desired w), output, w2, w3.
  split; [apply perturb_model_unfold|].
  split; [simpl; by rewrite Hpre|].
  split; [simpl; by rewrite Hpost|].
  split; [done|].
  assert (Hadjust : perturb_adjust_hook output w1 = Ok tt w2).
  { rewrite perturb_adjust_hook_unfold. simpl.
    rewrite lookup_insert_eq, lookup_insert_ne by done.
    by rewrite lookup_empty. }
  split.
  { unfold call_model, bind, gets. simpl. rewrite Hpre. simpl.
    unfold bind. fold s0. rewrite Hrun1. simpl.
    rewrite Hpost. simpl. unfold bind. fold output. by rewrite Hadjust. }
  split; [done|].
  split; [subst w2; simpl; by rewrite lookup_insert_eq|].
  split.
  { intros n Hn.
    destruct (drawn_all_snapshots s0 org noisy h k g n Hda Hn) as [Ho Hn'].
    split; [done|]. split; [done|].
    destruct (da_sum _ _ _ _ _ _ Hda n Hn) as (g' & Hg'). by exists g'. }
  split.
  { by rewrite reset_unfold. }
  intros n Hn. by apply Hlive3.
Qed.

End Hooks.

(** ** More on the controller *)

(** A float that is not equal to itself is NaN. *)
Lemma is_nan_Prim2SF (x : float) :
  PrimFloat.is_nan x = true -> Prim2SF x = SpecFloat.S754_nan.
Proof.
  unfold PrimFloat.is_nan. rewrite FloatAxioms.eqb_spec. unfold SpecFloat.SFeqb.
  destruct (Prim2SF x) as [[]|[]| |[] m e]; simpl; try reflexivity;
    try discriminate.
  - rewrite Z.compare_refl, Pos.compare_cont_refl. discriminate.
  - rewrite Z.compare_refl, Pos.compare_cont_refl. discriminate.
Qed.

Lemma float_gt_nan (a b : float) :
  PrimFloat.is_nan a = true \/ PrimFloat.is_nan b = true ->
  float_gt a b = false.
Proof.
  intros Hnan. unfold float_gt. rewrite ltb_spec. unfold SpecFloat.SFltb.
  destruct Hnan as [Ha|Hb].
  - rewrite (is_nan_Prim2SF a Ha). by destruct (Prim2SF b) as [[]|[]| |[] m e].
  - rewrite (is_nan_Prim2SF b Hb). reflexivity.
Qed.

(** X12: the only exception of [adapt] is [ZeroDivisionError]; it is raised
    exactly when the distance is greater than the desired one and the
    coefficient equals zero, and then the controller is unchanged. *)
Theorem adapt_raises_iff (self : AdaptiveParamNoise) (distance : float) :
  (raises (adapt distance self) = true <->
   float_gt distance (desired_action_stddev self) = true
   /\ PrimFloat.eqb (adoption_coefficient self) 0%float = true)
  /\ (forall e self',
        adapt distance self = Raise e self' ->
        e = ZeroDivisionError /\ self' = self).
Proof.
  unfold adapt, float_truediv.
  destruct (float_gt distance (desired_action_stddev self));
    destruct (PrimFloat.eqb (adoption_coefficient self) 0); simpl.
  - split; [tauto|]. by intros e self' [= <- <-].
  - split; [|discriminate]. split; [discriminate|]. by intros [_ ?].
  - split; [|discriminate]. split; [discriminate|]. by intros [? _].
  - split; [|discriminate]. split; [discriminate|]. by intros [? _].
Qed.

(** X13: when the distance or the desired distance is NaN, the comparison
    is false and [adapt] multiplies: it returns, whatever the coefficient,
    and the standard deviation grows by the coefficient. *)
Theorem adapt_nan (self : AdaptiveParamNoise) (distance : float) :
  PrimFloat.is_nan distance = true
  \/ PrimFloat.is_nan (desired_action_stddev self) = true ->
  adapt distance self =
    Ok tt (mkAdaptiveParamNoise (initial_stddev self)
             (desired_action_stddev self) (adoption_coefficient self)
             (current_stddev self * adoption_coefficient self)%float).
Proof.
  intros Hnan. rewrite adapt_grow; [done|]. by apply float_gt_nan.
Qed.

(** ** What the hooks leave alone *)

Lemma for_each_final {S A} (R : S -> S -> Prop) (l : list A)
    (body : A -> M S unit) :
  (forall s, R s s) ->
  (forall s1 s2 s3, R s1 s2 -> R s2 s3 -> R s1 s3) ->
  (forall x s, R s (final (body x s))) ->
  forall s, R s (final (for_each l body s)).
Proof.
  intros Hrefl Htrans Hbody. induction l as [|x l IH]; intros s; simpl.
  - apply Hrefl.
  - unfold bind. pose proof (Hbody x s) as Hx.
    destruct (body x s) as [[] s1|e s1]; simpl in *; [|done].
    eapply Htrans; [exact Hx|apply IH].
Qed.

Lemma bind_final {S A B} (R : S -> S -> Prop) (m : M S A) (k : A -> M S B)
    (s : S) :
  (forall s1 s2 s3, R s1 s2 -> R s2 s3 -> R s1 s3) ->
  R s (final (m s)) ->
  (forall a s1, R s1 (final (k a s1))) ->
  R s (final ((x <- m ;; k x) s)).
Proof.
  intros Htrans Hm Hk. unfold bind.
  destruct (m s) as [a s1|e s1]; simpl in *; [|done].
  eapply Htrans; [exact Hm|apply Hk].
Qed.

Section Frames.
Context `{PerturbArgs}.

Lemma redirected_refl (w : World) : redirected w w.
Proof. exists (param_storage w). by destruct w. Qed.

Lemma redirected_trans (w1 w2 w3 : World) :
  redirected w1 w2 -> redirected w2 w3 -> redirected w1 w3.
Proof. intros [f ->] [g ->]. by exists g. Qed.

Lemma perturbed_refl (w : World) : perturbed w w.
Proof.
  exists (param_storage w), (org_params w), (noisy_params w), (storage w),
    (next_storage w), (rng_state w).
  by destruct w.
Qed.

Lemma perturbed_trans (w1 w2 w3 : World) :
  perturbed w1 w2 -> perturbed w2 w3 -> perturbed w1 w3.
Proof.
  intros (f & o & n & h & k & g & ->) (f' & o' & n' & h' & k' & g' & ->).
  by exists f', o', n', h', k', g'.
Qed.

Lemma redirected_perturbed (w w' : World) : redirected w w' -> perturbed w w'.
Proof.
  intros [f ->].
  exists f, (org_params w), (noisy_params w), (storage w), (next_storage w),
    (rng_state w).
  by destruct w.
Qed.

Lemma swap_in_redirected (sel : World -> gmap string addr)
    (p : string * bool) (w : World) :
  redirected w (final (swap_in sel p w)).
Proof.
  destruct p as [n []]; [|apply redirected_refl].
  unfold swap_in, bind, gets, getitem. simpl.
  destruct (sel w !! n) as [a|]; simpl.
  - by eexists.
  - apply redirected_refl.
Qed.

Lemma draw_noise_perturbed (p : string * bool) (w : World) :
  perturbed w (final (draw_noise perturb_gen p w)).
Proof.
  destruct p as [n []]; [|apply perturbed_refl].
  rewrite draw_noise_unfold.
  set (g := (sample_for w (live w n)).2).
  destruct (tensor_iadd _ _) as [r|]; simpl.
  - exists (param_storage w), (<[n := next_storage w]> (org_params w)),
      (<[n := S (next_storage w)]> (noisy_params w)),
      (<[S (next_storage w) := r]>
         (<[param_storage w n := r]>
            (<[next_storage w := live w n]> (storage w)))),
      (S (S (next_storage w))), g.
    reflexivity.
  - exists (param_storage w), (<[n := next_storage w]> (org_params w)),
      (noisy_params w), (<[next_storage w := live w n]> (storage w)),
      (S (next_storage w)), g.
    reflexivity.
Qed.

Lemma perturb_post_hook_redirected (w : World) :
  redirected w (final (perturb_post_hook w)).
Proof.
  unfold perturb_post_hook, bind, gets.
  destruct (nonempty (org_params w)); [|apply redirected_refl].
  apply for_each_final.
  - apply redirected_refl.
  - apply redirected_trans.
  - apply swap_in_redirected.
Qed.

Lemma perturb_pre_hook_perturbed (w : World) :
  perturbed w (final (perturb_pre_hook w)).
Proof.
  unfold perturb_pre_hook, perturb_pre_hook_with, bind, gets. simpl.
  destruct (perturb_switch w) eqn:Hp; simpl.
  - destruct (nonempty (noisy_params w) && negb (reset_switch w)).
    + apply redirected_perturbed, for_each_final.
      * apply redirected_refl.
      * apply redirected_trans.
      * apply swap_in_redirected.
    + apply (perturbed_trans _ (cleared w)).
      * exists (param_storage w), ∅, ∅, (storage w), (next_storage w),
          (rng_state w). by destruct w.
      * apply (for_each_final perturbed).
        -- apply perturbed_refl.
        -- apply perturbed_trans.
        -- apply draw_noise_perturbed.
  - rewrite Hp. simpl.
    destruct (nonempty (org_params w)); [|apply perturbed_refl].
    apply redirected_perturbed, for_each_final.
    + apply redirected_refl.
    + apply redirected_trans.
    + apply swap_in_redirected.
Qed.

Lemma perturb_adjust_hook_tracked (w : World) (output : tensor) :
  tracked w (final (perturb_adjust_hook output w)).
Proof.
  rewrite perturb_adjust_hook_unfold. simpl.
  set (tmp := <[tag (perturb_switch w) := output]> (tmp_action w)).
  destruct (tmp !! "with_noise") as [a|];
    [destruct (tmp !! "without_noise") as [b|]|].
  - destruct (adapt _ _) as [[] spec|e spec]; simpl.
    + exists ∅, spec,
        (logger w ++ [LogOutputDistance (distance_func a b);
                      LogParamNoiseStddev (get_dev spec)]).
      reflexivity.
    + exists ∅, spec, (logger w). reflexivity.
  - simpl. exists tmp, (param_noise_spec w), (logger w). reflexivity.
  - simpl. exists tmp, (param_noise_spec w), (logger w). reflexivity.
Qed.

(** X8: whether it returns or raises, the pre hook leaves alone the
    controller, the pending outputs, the log, both registries, the reset
    list, the handles, the two switches and the list of parameters. *)
Theorem perturb_pre_hook_frame (w : World) :
  let w' := final (perturb_pre_hook w) in
  param_noise_spec w' = param_noise_spec w
  /\ tmp_action w' = tmp_action w
  /\ logger w' = logger w
  /\ forward_pre_hooks w' = forward_pre_hooks w
  /\ forward_hooks w' = forward_hooks w
  /\ next_handle w' = next_handle w
  /\ reset_hooks w' = reset_hooks w
  /\ hook_handles w' = hook_handles w
  /\ perturb_switch w' = perturb_switch w
  /\ reset_switch w' = reset_switch w
  /\ named_parameters w' = named_parameters w.
Proof.
  intros w'. subst w'.
  destruct (perturb_pre_hook_perturbed w) as (f & o & n & h & k & g & ->).
  by split_and!.
Qed.

(** X9: whether it returns or raises, the post hook writes no cell and
    allocates none, keeps both snapshot dictionaries and the random state,
    and leaves alone everything the pre hook leaves alone: it only changes
    which cell a parameter uses. *)
Theorem perturb_post_hook_frame (w : World) :
  let w' := final (perturb_post_hook w) in
  storage w' = storage w
  /\ next_storage w' = next_storage w
  /\ org_params w' = org_params w
  /\ noisy_params w' = noisy_params w
  /\ rng_state w' = rng_state w
  /\ param_noise_spec w' = param_noise_spec w
  /\ tmp_action w' = tmp_action w
  /\ logger w' = logger w
  /\ forward_pre_hooks w' = forward_pre_hooks w
  /\ forward_hooks w' = forward_hooks w
  /\ reset_hooks w' = reset_hooks w
  /\ hook_handles w' = hook_handles w
  /\ perturb_switch w' = perturb_switch w
  /\ reset_switch w' = reset_switch w
  /\ named_parameters w' = named_parameters w.
Proof.
  intros w'. subst w'.
  destruct (perturb_post_hook_redirected w) as (f & ->).
  by split_and!.
Qed.

(** X10: whether it returns or raises, the adjust hook changes no
    parameter: the cell each parameter uses, the cells, both snapshot
    dictionaries, the random state, the registries and the switches are as
    before. *)
Theorem perturb_adjust_hook_frame (w : World) (output : tensor) :
  let w' := final (perturb_adjust_hook output w) in
  (forall n, live w' n = live w n)
  /\ param_storage w' = param_storage w
  /\ storage w' = storage w
  /\ next_storage w' = next_storage w
  /\ org_params w' = org_params w
  /\ noisy_params w' = noisy_params w
  /\ rng_state w' = rng_state w
  /\ forward_pre_hooks w' = forward_pre_hooks w
  /\ forward_hooks w' = forward_hooks w
  /\ reset_hooks w' = reset_hooks w
  /\ perturb_switch w' = perturb_switch w
  /\ reset_switch w' = reset_switch w
  /\ named_parameters w' = named_parameters w.
Proof.
  intros w'. subst w'.
  destruct (perturb_adjust_hook_tracked w output) as (tmp & spec & log & ->).
  by split_and!.
Qed.

End Frames.

(** ** A snapshot entry that is missing *)

Section Missing.
Context `{PerturbArgs}.

Lemma swap_in_loop_raise (sel : World -> gmap string addr)
    (ps : list (string * bool)) (w w' : World) (e : exn) :
  (forall f w0, sel (set_param_storage f w0) = sel w0) ->
  for_each ps (swap_in sel) w = Raise e w' ->
  exists n, e = KeyError n /\ (n, true) ∈ ps /\ sel w !! n = None.
Proof.
  intros Hsel. revert w. induction ps as [|[n []] ps IH]; intros w Hrun.
  - discriminate.
  - simpl in Hrun. unfold bind in Hrun.
    destruct (sel w !! n) as [a|] eqn:Hn.
    + unfold swap_in, bind, gets, getitem in Hrun. simpl in Hrun.
      rewrite Hn in Hrun. simpl in Hrun.
      apply IH in Hrun as (m & -> & Hm & Hnone).
      exists m. split; [done|]. split; [apply elem_of_cons; by right|].
      by rewrite Hsel in Hnone.
    + rewrite (swap_in_missing sel n w Hn) in Hrun. injection Hrun as <- <-.
      exists n. split; [done|]. split; [apply elem_of_cons; by left|done].
  - simpl in Hrun. unfold bind in Hrun. simpl in Hrun.
    apply IH in Hrun as (m & -> & Hm & Hnone).
    exists m. split; [done|]. split; [apply elem_of_cons; by right|done].
Qed.

(** X11: the only exception of the post hook is [KeyError]: it is raised
    for a tensor parameter that the original snapshot, not empty, lacks.
    At the first such parameter the hook stops: the parameters before it
    have been given their original values, the others have not been
    touched. *)
Theorem perturb_post_hook_key_error (w : World) :
  (forall e w',
     perturb_post_hook w = Raise e w' ->
     exists n, e = KeyError n /\ is_param w n
       /\ org_params w !! n = None /\ org_params w <> ∅)
  /\ (forall pre n post,
        org_params w <> ∅ ->
        named_parameters w = pre ++ (n, true) :: post ->
        (forall m, (m, true) ∈ pre -> is_Some (org_params w !! m)) ->
        org_params w !! n = None ->
        perturb_post_hook w =
          Raise (KeyError n)
            (set_param_storage
               (redirect (org_params w) pre (param_storage w)) w)).
Proof.
  split.
  - intros e w' Hrun. unfold perturb_post_hook, bind, gets in Hrun.
    destruct (decide (org_params w = ∅)) as [Hempty|Hne].
    + by rewrite (nonempty_false _ Hempty) in Hrun.
    + rewrite (nonempty_true _ Hne) in Hrun.
      apply swap_in_loop_raise in Hrun as (n & -> & Hn & Hnone); [|done].
      by exists n.
  - intros pre n post Hne Hps Hpre Hnone.
    unfold perturb_post_hook, bind, gets.
    rewrite (nonempty_true _ Hne), Hps, for_each_app.
    rewrite (bind_ok _ _ _ _ _ (swap_in_loop org_params pre w
                                  (fun _ _ => eq_refl) Hpre)).
    simpl. unfold bind. by rewrite swap_in_missing.
Qed.

End Missing.

(** ** Registering and deregistering *)

Lemma filter_all {A} (P : A -> Prop) `{!forall x, Decision (P x)} (l : list A) :
  (forall x, P x) -> filter P l = l.
Proof.
  intros HP. induction l as [|x l IH]; [done|].
  rewrite filter_cons_True by done. by rewrite IH.
Qed.

Lemma filter_none {A} (P : A -> Prop) `{!forall x, Decision (P x)} (l : list A) :
  (forall x, x ∈ l -> ~ P x) -> filter P l = [].
Proof.
  intros HP. induction l as [|x l IH]; [done|].
  rewrite filter_cons_False by (apply HP, elem_of_cons; by left).
  apply IH. intros y Hy. apply HP, elem_of_cons. by right.
Qed.

Lemma filter_keeps {A} (P : A -> Prop) `{!forall x, Decision (P x)} (l : list A) :
  (forall x, x ∈ l -> P x) -> filter P l = l.
Proof.
  intros HP. induction l as [|x l IH]; [done|].
  rewrite filter_cons_True by (apply HP, elem_of_cons; by left).
  rewrite IH; [done|]. intros y Hy. apply HP, elem_of_cons. by right.
Qed.

Section Registry.
Context `{PerturbArgs}.

Lemma handle_remove_loop (l : list handle) (w : World) :
  for_each l handle_remove w =
    Ok tt
      (set_forward_hooks
         (filter (fun p => ForwardHandle p.1 ∉ l) (forward_hooks w))
         (set_forward_pre_hooks
            (filter (fun p => ForwardPreHandle p.1 ∉ l) (forward_pre_hooks w))
            w)).
Proof.
  revert w. induction l as [|hh l IH]; intros w.
  - simpl. unfold ret. f_equal.
    rewrite !filter_all by (intros p; apply not_elem_of_nil).
    by destruct w.
  - assert (Hsame : forall (l0 : list (nat * hook)) i,
              filter (fun p : nat * hook => ForwardPreHandle p.1 ∉ l)
                (remove_key i l0)
              = filter (fun p : nat * hook =>
                          ForwardPreHandle p.1 ∉ ForwardPreHandle i :: l) l0).
    { intros l0 i. unfold remove_key. rewrite list_filter_filter.
      apply list_filter_iff. intros p. rewrite not_elem_of_cons. naive_solver. }
    assert (Hsame' : forall (l0 : list (nat * hook)) i,
              filter (fun p : nat * hook => ForwardHandle p.1 ∉ l)
                (remove_key i l0)
              = filter (fun p : nat * hook =>
                          ForwardHandle p.1 ∉ ForwardHandle i :: l) l0).
    { intros l0 i. unfold remove_key. rewrite list_filter_filter.
      apply list_filter_iff. intros p. rewrite not_elem_of_cons. naive_solver. }
    assert (Hother : forall (l0 : list (nat * hook)) i,
              filter (fun p : nat * hook => ForwardPreHandle p.1 ∉ l) l0
              = filter (fun p : nat * hook =>
                          ForwardPreHandle p.1 ∉ ForwardHandle i :: l) l0).
    { intros l0 i. apply list_filter_iff. intros p.
      rewrite not_elem_of_cons. naive_solver. }
    assert (Hother' : forall (l0 : list (nat * hook)) i,
              filter (fun p : nat * hook => ForwardHandle p.1 ∉ l) l0
              = filter (fun p : nat * hook =>
                          ForwardHandle p.1 ∉ ForwardPreHandle i :: l) l0).
    { intros l0 i. apply list_filter_iff. intros p.
      rewrite not_elem_of_cons. naive_solver. }
    simpl. destruct hh as [i|i]; unfold bind, handle_remove, modify;
      rewrite IH; simpl.
    + by rewrite Hsame, (Hother' _ i).
    + by rewrite Hsame', (Hother _ i).
Qed.

Lemma deregister_unfold (w : World) : deregister w = Ok tt (deregistered w).
Proof. unfold deregister, bind, gets. apply handle_remove_loop. Qed.

(** The session once deregistered, when the ids in use are below the next
    handle id: the registries are those of the model before. *)
Lemma deregistered_session (desired : float) (w : World) :
  (forall p, p ∈ forward_hooks w -> p.1 < next_handle w) ->
  (forall p, p ∈ forward_pre_hooks w -> p.1 < next_handle w) ->
  forward_hooks (deregistered (session desired w)) = forward_hooks w
  /\ forward_pre_hooks (deregistered (session desired w)) = forward_pre_hooks w.
Proof.
  intros Hfh Hfph. simpl. rewrite !list.filter_app. split.
  - rewrite filter_keeps, filter_none; [by rewrite app_nil_r| |].
    + intros p ->%list_elem_of_singleton Hp. apply Hp. simpl.
      apply elem_of_cons. by left.
    + intros p Hp [Heq|Hin%list_elem_of_singleton]%elem_of_cons; simplify_eq.
      specialize (Hfh p Hp). lia.
  - rewrite filter_keeps, filter_none; [by rewrite app_nil_r| |].
    + intros p ->%list_elem_of_singleton Hp. apply Hp. simpl.
      apply elem_of_cons. right. apply elem_of_cons. by left.
    + intros p Hp [Heq|Hin%list_elem_of_singleton]%elem_of_cons; simplify_eq.
      specialize (Hfph p Hp). lia.
Qed.

Lemma call_model_no_hooks (w : World) (x : input) :
  forward_pre_hooks w = [] -> forward_hooks w = [] ->
  call_model x w = Ok (forward (live w) x) w.
Proof.
  intros Hfph Hfh. unfold call_model, bind, gets.
  rewrite Hfph. simpl. rewrite Hfh. reflexivity.
Qed.

(** X1: registering then deregistering is a round trip. When the handle
    ids in use on the model are below its next handle id,
    [perturb_model] followed by [deregister()] leaves both registries as
    they were, and the parameters untouched. *)
Theorem perturb_model_deregister (w : World) (desired : float) :
  (forall p, p ∈ forward_hooks w -> p.1 < next_handle w) ->
  (forall p, p ∈ forward_pre_hooks w -> p.1 < next_handle w) ->
  exists w',
    (perturb_model desired ;; deregister) w = Ok tt w'
    /\ forward_hooks w' = forward_hooks w
    /\ forward_pre_hooks w' = forward_pre_hooks w
    /\ param_storage w' = param_storage w
    /\ storage w' = storage w.
Proof.
  intros Hfh Hfph. exists (deregistered (session desired w)).
  split.
  - rewrite (bind_ok _ _ _ _ _ (perturb_model_unfold desired w)).
    apply deregister_unfold.
  - destruct (deregistered_session desired w Hfh Hfph) as [-> ->]. done.
Qed.

(** X2: [deregister()] returns in every world; it removes from the two
    registries exactly the entries whose handles are in [hook_handles] and
    changes nothing else, in particular no parameter; a second call changes
    nothing. *)
Theorem deregister_idempotent (w : World) :
  exists w',
    deregister w = Ok tt w'
    /\ deregister w' = Ok tt w'
    /\ (forall p, p ∈ forward_hooks w' <->
          p ∈ forward_hooks w /\ ForwardHandle p.1 ∉ hook_handles w)
    /\ (forall p, p ∈ forward_pre_hooks w' <->
          p ∈ forward_pre_hooks w /\ ForwardPreHandle p.1 ∉ hook_handles w)
    /\ param_storage w' = param_storage w
    /\ storage w' = storage w
    /\ org_params w' = org_params w
    /\ noisy_params w' = noisy_params w
    /\ reset_hooks w' = reset_hooks w.
Proof.
  exists (deregistered w). split; [apply deregister_unfold|].
  split.
  - rewrite deregister_unfold. f_equal. unfold deregistered. simpl.
    rewrite !list_filter_filter_l by done. reflexivity.
  - split_and!; try done.
    + intros p. simpl. rewrite list_elem_of_filter. tauto.
    + intros p. simpl. rewrite list_elem_of_filter. tauto.
Qed.

(** X3: after [deregister()] the session is detached. On a model that had
    no hook, [perturb_model] followed by [deregister()] leaves a model
    whose evaluation returns the output of its own parameters and changes
    nothing, whatever the two switches say. *)
Theorem deregistered_model_untouched (w : World) (desired : float) :
  forward_pre_hooks w = [] -> forward_hooks w = [] ->
  exists w',
    (perturb_model desired ;; deregister) w = Ok tt w'
    /\ forall sw x,
         call_model x (switched sw w')
         = Ok (forward (live w) x) (switched sw w').
Proof.
  intros Hfph Hfh. exists (deregistered (session desired w)).
  split.
  - rewrite (bind_ok _ _ _ _ _ (perturb_model_unfold desired w)).
    apply deregister_unfold.
  - intros sw x.
    destruct (deregistered_session desired w) as [Hfh' Hfph'].
    { rewrite Hfh. intros p Hp. by apply elem_of_nil in Hp. }
    { rewrite Hfph. intros p Hp. by apply elem_of_nil in Hp. }
    apply (call_model_no_hooks (switched sw (deregistered (session desired w)))).
    + change (forward_pre_hooks (deregistered (session desired w)) = []).
      by rewrite Hfph'.
    + change (forward_hooks (deregistered (session desired w)) = []).
      by rewrite Hfh'.
Qed.

End Registry.

(** ** Evaluations in a session *)

Section Evaluation.
Context `{PerturbArgs}.

Lemma wf_tracked (w w' : World) : wf w -> tracked w w' -> wf w'.
Proof. intros Hwf (tmp & spec & log & ->). by destruct Hwf. Qed.

Lemma wf_deregistered (w : World) : wf w -> wf (deregistered w).
Proof. intros Hwf. by destruct Hwf. Qed.

(** An evaluation of a model that holds the two hooks of a session. *)
Lemma call_model_session (w : World) (x : input) (i j : nat) :
  forward_pre_hooks w = [(i, PerturbPreHook)] ->
  forward_hooks w = [(j, PerturbAdjustHook)] ->
  call_model x w =
    match perturb_pre_hook w with
    | Ok _ w1 =>
        match perturb_adjust_hook (forward (live w1) x) w1 with
        | Ok _ w2 => Ok (forward (live w1) x) w2
        | Raise e w2 => Raise e w2
        end
    | Raise e w1 => Raise e w1
    end.
Proof.
  intros Hfph Hfh. unfold call_model, bind, gets. rewrite Hfph. simpl.
  unfold bind.
  pose proof (perturb_pre_hook_perturbed w) as Hframe.
  destruct (perturb_pre_hook w) as [[] w1|e w1]; [|reflexivity].
  simpl in Hframe. destruct Hframe as (f & o & n & h & k & g & ->).
  simpl. rewrite Hfh. simpl. unfold bind.
  by destruct (perturb_adjust_hook _ _) as [[] w2|e w2].
Qed.

Lemma in_session_session (desired : float) (w : World) :
  wf w -> forward_pre_hooks w = [] -> forward_hooks w = [] ->
  in_session (session desired w).
Proof.
  intros Hwf Hfph Hfh. split; [by apply wf_session|]. simpl.
  rewrite Hfph, Hfh. split; [by eexists|]. split; [by eexists|]. done.
Qed.

Lemma in_session_switched (sw : bool * bool) (w : World) :
  in_session w -> in_session (switched sw w).
Proof.
  intros (Hwf & Hfph & Hfh & Hreset & Hnz).
  split; [by apply wf_switched|done].
Qed.

Lemma in_session_pre (w : World) :
  in_session w -> conforms ->
  exists w1, perturb_pre_hook w = Ok tt w1 /\ in_session w1.
Proof.
  intros (Hwf & Hfph & Hfh & Hreset & Hnz) Hconf.
  destruct (perturb_pre_hook_returns w Hwf Hconf) as (w1 & Hrun & Hwf1 & _).
  exists w1. split; [done|].
  pose proof (perturb_pre_hook_perturbed w) as Hframe.
  rewrite Hrun in Hframe. simpl in Hframe.
  destruct Hframe as (f & o & n & h & k & g & ->).
  split; [done|]. done.
Qed.

Lemma in_session_adjust (w : World) (output : tensor) :
  in_session w ->
  exists w2, perturb_adjust_hook output w = Ok tt w2 /\ in_session w2.
Proof.
  intros (Hwf & Hfph & Hfh & Hreset & Hnz).
  pose proof (perturb_adjust_hook_tracked w output) as Hframe.
  rewrite perturb_adjust_hook_unfold in *. simpl in *.
  set (tmp := <[tag (perturb_switch w) := output]> (tmp_action w)) in *.
  destruct (tmp !! "with_noise") as [a|];
    [destruct (tmp !! "without_noise") as [b|]|].
  - destruct (adapt_returns (param_noise_spec w) (distance_func a b) Hnz)
      as (spec & Hspec & Hcoef & _).
    rewrite Hspec in *. simpl in Hframe. eexists. split; [done|].
    split; [by eapply wf_tracked|]. simpl. by rewrite Hcoef.
  - eexists. split; [done|]. split; [by eapply wf_tracked|done].
  - eexists. split; [done|]. split; [by eapply wf_tracked|done].
Qed.

Lemma in_session_call_model (w : World) (x : input) :
  in_session w -> conforms ->
  exists output w', call_model x w = Ok output w' /\ in_session w'.
Proof.
  intros Hin Hconf.
  pose proof Hin as (_ & [i Hfph] & [j Hfh] & _).
  rewrite (call_model_session w x i j Hfph Hfh).
  destruct (in_session_pre w Hin Hconf) as (w1 & -> & Hin1).
  destruct (in_session_adjust w1 (forward (live w1) x) Hin1) as (w2 & -> & Hin2).
  by eexists _, _.
Qed.

Lemma in_session_reset (w : World) :
  in_session w -> exists w', reset w = Ok tt w' /\ in_session w'.
Proof.
  intros (Hwf & Hfph & Hfh & Hreset & Hnz).
  rewrite (reset_unfold w Hreset).
  destruct (perturb_post_hook_returns w Hwf) as (w' & Hrun & Hwf' & _).
  exists w'. split; [done|].
  pose proof (perturb_post_hook_redirected w) as Hframe.
  rewrite Hrun in Hframe. simpl in Hframe. destruct Hframe as (f & ->).
  split; [done|]. done.
Qed.

(** X6: a session in use never raises. With a noise source that conforms,
    every sequence of evaluations, under any values of the two switches,
    and of calls of [reset()] returns, and leaves a session in use: the
    world is well-formed, the hooks are in place and the coefficient of
    the controller is not zero. *)
Theorem session_never_raises (w : World) (acts : list action) :
  in_session w -> conforms ->
  exists w', for_each acts run_action w = Ok tt w' /\ in_session w'.
Proof.
  intros Hin Hconf. revert w Hin.
  induction acts as [|a acts IH]; intros w Hin.
  - by exists w.
  - assert (Hstep : exists w1, run_action a w = Ok tt w1 /\ in_session w1).
    { destruct a as [sw x|].
      - destruct (in_session_call_model (switched sw w) x)
          as (output & w1 & Hrun & Hin1); [by apply in_session_switched|done|].
        exists w1. split; [|done].
        unfold run_action, bind, modify. simpl.
        change (set_reset_switch sw.2 (set_perturb_switch sw.1 w))
          with (switched sw w).
        by rewrite Hrun.
      - by apply in_session_reset. }
    destruct Hstep as (w1 & Hrun1 & Hin1).
    destruct (IH w1 Hin1) as (w' & Hrun & Hin').
    exists w'. simpl. by rewrite (bind_ok _ _ _ _ _ Hrun1).
Qed.

(** An evaluation that draws noise, in a session with nothing pending. *)
Lemma evaluate_noisy (s : World) (x : input) :
  in_session s -> conforms ->
  perturb_switch s = true ->
  noisy_params s = ∅ \/ reset_switch s = true ->
  tmp_action s !! "without_noise" = None ->
  exists org noisy h k g,
    drawn_all (named_parameters s) (cleared s) org noisy h k
    /\ call_model x s =
       Ok (forward (live (redrawn org noisy h k g s)) x)
          (set_tmp_action
             (<["with_noise" := forward (live (redrawn org noisy h k g s)) x]>
                (tmp_action s))
             (redrawn org noisy h k g s)).
Proof.
  intros (Hwf & [i Hfph] & [j Hfh] & _ & _) Hconf Hp Hbranch Hpending.
  destruct (perturb_pre_hook_draw_returns s Hconf Hp Hbranch) as [w1 Hrun1].
  pose proof Hrun1 as Hspec.
  apply perturb_pre_hook_draw_spec in Hspec
    as (org & noisy & h & k & g & -> & Hda); auto.
  exists org, noisy, h, k, g. split; [done|].
  rewrite (call_model_session s x i j Hfph Hfh), Hrun1.
  rewrite perturb_adjust_hook_unfold. simpl. rewrite Hp. simpl.
  rewrite lookup_insert_eq, lookup_insert_ne by done.
  by rewrite Hpending.
Qed.

(** X5: the adaptation loop. In a new session, an evaluation with
    perturbation on followed by one with perturbation off returns: the
    second output is the one of the former values of the parameters, which
    the parameters hold again; the distance of the first output to the
    second goes to [adapt], the result is the controller of the session,
    the pending outputs are cleared and the two lines are logged. *)
Theorem evaluate_noisy_then_clean (w : World) (desired : float)
    (x x' : input) (r r' : bool) :
  wf w -> conforms ->
  forward_pre_hooks w = [] -> forward_hooks w = [] ->
  exists o1 w1 o2 w2 spec,
    call_model x (switched (true, r) (session desired w)) = Ok o1 w1
    /\ call_model x' (switched (false, r') w1) = Ok o2 w2
    /\ o2 = forward (live w2) x'
    /\ (forall n, is_param w n -> live w2 n = live w n)
    /\ adapt (distance_func o1 o2)
         (mkAdaptiveParamNoise default_initial_stddev desired
            default_adoption_coefficient default_initial_stddev)
       = Ok tt spec
    /\ param_noise_spec w2 = spec
    /\ tmp_action w2 = ∅
    /\ logger w2
       = logger w ++ [LogOutputDistance (distance_func o1 o2);
                      LogParamNoiseStddev (get_dev spec)].
Proof.
  intros Hwf Hconf Hfph Hfh.
  set (s := switched (true, r) (session desired w)).
  assert (Hin : in_session s)
    by (by apply in_session_switched, in_session_session).
  destruct (evaluate_noisy s x Hin Hconf eq_refl (or_introl eq_refl) eq_refl)
    as (org & noisy & h & k & g & Hda & Hrun1).
  set (w1a := redrawn org noisy h k g s) in *.
  set (o1 := forward (live w1a) x) in *.
  set (w1 := set_tmp_action (<["with_noise" := o1]> (tmp_action s)) w1a) in *.
  set (s1 := switched (false, r') w1).
  assert (Hwf1 : wf s1).
  { apply wf_switched, wf_set_tmp_action.
    apply wf_redrawn; [apply Hin|done]. }
  assert (Hold : holds_original (live w) s1).
  { intros n Hn.
    by destruct (drawn_all_snapshots s org noisy h k g n Hda Hn). }
  assert (Hpre : exists w2a, perturb_pre_hook s1 = Ok tt w2a
            /\ redirected s1 w2a
            /\ forall n, is_param w n -> live w2a n = live w n).
  { destruct (decide (org_params s1 = ∅)) as [Hempty|Hne].
    - exists s1. split; [by apply perturb_pre_hook_noop|].
      split; [apply redirected_refl|].
      intros n Hn. specialize (Hold n Hn). unfold snapshot in Hold.
      by rewrite Hempty, lookup_empty in Hold.
    - exists (swapped (org_params s1) s1).
      split; [apply perturb_pre_hook_restore;
              auto using wf_org_complete|].
      split; [by eexists|].
      intros n Hn. specialize (Hold n Hn). unfold snapshot in Hold.
      destruct (org_params s1 !! n) as [a|] eqn:Ha; [|done].
      rewrite (live_swapped _ s1 n a Hn Ha). simpl in Hold. by injection Hold. }
  destruct Hpre as (w2a & Hrun2 & [f ->] & Hlive).
  set (w2a := set_param_storage f s1) in *.
  set (o2 := forward (live w2a) x').
  set (spec0 := mkAdaptiveParamNoise default_initial_stddev desired
                  default_adoption_coefficient default_initial_stddev).
  destruct (adapt_returns spec0 (distance_func o1 o2) eq_refl)
    as (spec & Hspec & _).
  exists o1, w1, o2, (adapted (distance_func o1 o2) spec w2a), spec.
  split; [exact Hrun1|]. split.
  { fold s1.
    rewrite (call_model_session s1 x' (S (next_handle w)) (next_handle w)).
    - rewrite Hrun2. rewrite perturb_adjust_hook_unfold. simpl.
      rewrite lookup_insert_ne, lookup_insert_eq, lookup_insert_eq by done.
      fold o2. fold spec0. by rewrite Hspec.
    - simpl. by rewrite Hfph.
    - simpl. by rewrite Hfh. }
  split; [done|]. split; [exact Hlive|]. split; [exact Hspec|].
  by split_and!.
Qed.

(** X4: [deregister()] restores nothing. Called after an evaluation with
    perturbation on and before [reset()], it leaves the noisy values in
    the parameters: every later evaluation returns the output of the noisy
    values, whatever the switches say, until [reset()], which still gives
    the parameters their former values. *)
Theorem deregister_keeps_noise (w : World) (desired : float) (x : input)
    (r : bool) :
  wf w -> conforms ->
  forward_pre_hooks w = [] -> forward_hooks w = [] ->
  exists output w2 w3 w4,
    call_model x (switched (true, r) (session desired w)) = Ok output w2
    /\ (forall n, is_param w n ->
          snapshot w2 (org_params w2) n = Some (live w n)
          /\ snapshot w2 (noisy_params w2) n = Some (live w2 n))
    /\ deregister w2 = Ok tt w3
    /\ (forall sw x',
          call_model x' (switched sw w3)
          = Ok (forward (live w2) x') (switched sw w3))
    /\ reset w3 = Ok tt w4
    /\ forall n, is_param w n -> live w4 n = live w n.
Proof.
  intros Hwf Hconf Hfph Hfh.
  set (s := switched (true, r) (session desired w)).
  assert (Hin : in_session s)
    by (by apply in_session_switched, in_session_session).
  destruct (evaluate_noisy s x Hin Hconf eq_refl (or_introl eq_refl) eq_refl)
    as (org & noisy & h & k & g & Hda & Hrun1).
  set (w1a := redrawn org noisy h k g s) in *.
  set (output := forward (live w1a) x) in *.
  set (w2 := set_tmp_action (<["with_noise" := output]> (tmp_action s)) w1a) in *.
  assert (Hwf3 : wf (deregistered w2)).
  { apply wf_deregistered, wf_set_tmp_action.
    apply wf_redrawn; [apply Hin|done]. }
  assert (Hold : holds_original (live w) (deregistered w2)).
  { intros n Hn.
    by destruct (drawn_all_snapshots s org noisy h k g n Hda Hn). }
  destruct (perturb_post_hook_original (live w) _ Hwf3 Hold)
    as (w4 & Hrun4 & Hlive4).
  exists output, w2, (deregistered w2), w4.
  split; [exact Hrun1|]. split.
  { intros n Hn. apply (drawn_all_snapshots s org noisy h k g n Hda Hn). }
  split; [apply deregister_unfold|]. split.
  { intros sw x'.
    apply (call_model_no_hooks (switched sw (deregistered w2))).
    - simpl. rewrite Hfph. simpl. apply filter_none.
      intros p ->%list_elem_of_singleton Hout. apply Hout. simpl.
      apply elem_of_cons. right. apply elem_of_cons. by left.
    - simpl. rewrite Hfh. simpl. apply filter_none.
      intros p ->%list_elem_of_singleton Hout. apply Hout. simpl.
      apply elem_of_cons. by left. }
  split; [by rewrite reset_unfold|].
  exact Hlive4.
Qed.

End Evaluation.

(** ** Restores, the cache and in-place updates *)

Section Updates.
Context `{PerturbArgs}.

(** X15: with perturbation off the pre hook is the post hook: in every
    world the two give the same outcome, the same exception included. *)
Theorem perturb_pre_hook_off (w : World) :
  perturb_switch w = false ->
  perturb_pre_hook w = perturb_post_hook w.
Proof.
  intros Hp.
  unfold perturb_pre_hook, perturb_pre_hook_with, perturb_post_hook, bind, gets.
  rewrite Hp. simpl. rewrite Hp. reflexivity.
Qed.

Lemma wf_set_storage (h : addr -> tensor) (w : World) :
  wf w -> wf (set_storage h w).
Proof. intros Hwf. by destruct Hwf. Qed.

Lemma wf_redirected (w w' : World) :
  wf w -> redirected w w' ->
  (forall n, is_param w n -> param_storage w' n < next_storage w) ->
  (forall n m, is_param w n -> is_param w m ->
     param_storage w' n = param_storage w' m -> n = m) ->
  wf w'.
Proof. intros Hwf [f ->] Halloc Hsep. by destruct Hwf. Qed.

(** The loop that draws noise keeps the two snapshots in separate,
    allocated cells. *)
Lemma draw_noise_loop_apart (ps : list (string * bool)) (w w' : World) :
  apart w ->
  allocated w (org_params w) -> allocated w (noisy_params w) ->
  for_each ps (draw_noise perturb_gen) w = Ok tt w' ->
  apart w' /\ allocated w' (org_params w') /\ allocated w' (noisy_params w').
Proof.
  revert w. induction ps as [|[n []] ps IH]; intros w Hapart Horg Hnoisy Hrun.
  - by injection Hrun as <-.
  - simpl in Hrun. unfold bind in Hrun. rewrite draw_noise_unfold in Hrun.
    destruct (tensor_iadd _ _) as [r|]; [|discriminate].
    apply IH in Hrun; [done|..].
    + intros x y c Hx Hy. simpl in Hx, Hy.
      apply lookup_insert_Some in Hx as [[-> <-]|[_ Hx]];
        apply lookup_insert_Some in Hy as [[-> Hc]|[_ Hy]].
      * lia.
      * specialize (Hnoisy _ _ Hy). lia.
      * specialize (Horg _ _ Hx). lia.
      * by eapply Hapart.
    + intros x c Hx. simpl in *.
      apply lookup_insert_Some in Hx as [[-> <-]|[_ Hx]]; [lia|].
      specialize (Horg _ _ Hx). lia.
    + intros x c Hx. simpl in *.
      apply lookup_insert_Some in Hx as [[-> <-]|[_ Hx]]; [lia|].
      specialize (Hnoisy _ _ Hx). lia.
  - simpl in Hrun. unfold bind in Hrun. rewrite draw_noise_skip in Hrun.
    by apply IH in Hrun.
Qed.

(** A call of [pre_evaluate] that draws noise: the world it leaves. *)
Lemma pre_evaluate_draws (sw : bool * bool) (w : World) :
  wf w -> conforms -> draws_noise w sw = true ->
  exists org noisy h k g,
    pre_evaluate sw w = Ok tt (redrawn org noisy h k g (switched sw w))
    /\ drawn_all (named_parameters w) (cleared (switched sw w)) org noisy h k
    /\ wf (redrawn org noisy h k g (switched sw w))
    /\ apart (redrawn org noisy h k g (switched sw w)).
Proof.
  intros Hwf Hconf [Hp Hbranch]%draws_noise_true.
  pose proof (wf_switched sw w Hwf) as Hwf0.
  rewrite pre_evaluate_unfold.
  destruct (perturb_pre_hook_draw_returns (switched sw w) Hconf Hp Hbranch)
    as [w1 Hrun].
  pose proof Hrun as Hspec.
  apply perturb_pre_hook_draw_spec in Hspec
    as (org & noisy & h & k & g & -> & Hda); auto.
  exists org, noisy, h, k, g. split; [done|]. split; [done|].
  split; [by apply wf_redrawn|].
  rewrite (perturb_pre_hook_draw (switched sw w) Hp Hbranch) in Hrun.
  apply draw_noise_loop_apart in Hrun as [Hapart _]; [done|..].
  - intros x y c Hx. simpl in Hx. by rewrite lookup_empty in Hx.
  - intros x c Hx. simpl in Hx. by rewrite lookup_empty in Hx.
  - intros x c Hx. simpl in Hx. by rewrite lookup_empty in Hx.
Qed.

(** The post hook: the world it leaves and the cells the parameters use
    in it. *)
Lemma perturb_post_hook_cells (w : World) :
  wf w ->
  exists f,
    perturb_post_hook w = Ok tt (set_param_storage f w)
    /\ wf (set_param_storage f w)
    /\ forall n a, is_param w n -> org_params w !! n = Some a -> f n = a.
Proof.
  intros Hwf. destruct (decide (org_params w = ∅)) as [Hempty|Hne].
  - exists (param_storage w).
    replace (set_param_storage (param_storage w) w) with w by (by destruct w).
    split; [by apply perturb_post_hook_noop|]. split; [done|].
    intros n a _ Ha. by rewrite Hempty, lookup_empty in Ha.
  - exists (redirect (org_params w) (named_parameters w) (param_storage w)).
    split; [apply perturb_post_hook_restore; auto using wf_org_complete|].
    split.
    + apply (wf_swapped (org_params w) w); auto using wf_org_complete.
      * by apply wf_org_allocated.
      * by apply wf_org_separate.
    + intros n a Hn Ha. by apply redirect_param.
Qed.

(** X14: the cached noise survives a restore. After a call that draws
    noise, a call with perturbation off gives the parameters their former
    values, and a call with perturbation on and resampling off then gives
    them the very values the draw had left. *)
Theorem cache_survives_restore (w : World) (sw : bool * bool) (r : bool) :
  wf w -> conforms -> draws_noise w sw = true ->
  exists w1 w2 w3,
    pre_evaluate sw w = Ok tt w1
    /\ pre_evaluate (false, r) w1 = Ok tt w2
    /\ (forall n, is_param w n -> live w2 n = live w n)
    /\ pre_evaluate (true, false) w2 = Ok tt w3
    /\ (forall n, is_param w n -> live w3 n = live w1 n).
Proof.
  intros Hwf Hconf Hdraw.
  destruct (pre_evaluate_draws sw w Hwf Hconf Hdraw)
    as (org & noisy & h & k & g & Hrun1 & Hda & Hwf1 & _).
  set (w1 := redrawn org noisy h k g (switched sw w)) in *.
  pose proof (wf_switched (false, r) w1 Hwf1) as Hwf1'.
  destruct (perturb_post_hook_cells _ Hwf1') as (f & Hrun2 & Hwf2 & Hf).
  rewrite <- perturb_pre_hook_off in Hrun2 by done.
  set (w2 := set_param_storage f (switched (false, r) w1)) in *.
  pose proof (wf_switched (true, false) w2 Hwf2) as Hwf2'.
  destruct (pre_evaluate_returns (true, false) w2 Hwf2 Hconf)
    as (w3 & Hrun3 & _).
  exists w1, w2, w3. split; [done|]. split; [done|].
  split; [|split; [done|]].
  - intros n Hn. destruct (da_org _ _ _ _ _ _ Hda n Hn) as (a & Ha & _ & Hval).
    unfold live at 1. simpl. by rewrite (Hf n a Hn Ha).
  - intros n Hn.
    destruct (da_noisy _ _ _ _ _ _ Hda n Hn) as (b & Hb & _ & Hval).
    rewrite pre_evaluate_unfold in Hrun3.
    rewrite perturb_pre_hook_reuse in Hrun3; try done.
    + injection Hrun3 as <-.
      rewrite (live_swapped _ (switched (true, false) w2) n b Hn Hb).
      simpl. by rewrite Hval.
    + simpl. intros Hempty. by rewrite Hempty, lookup_empty in Hb.
    + apply (wf_noisy_complete _ Hwf2'). simpl.
      intros Hempty. by rewrite Hempty, lookup_empty in Hb.
Qed.

(** X16: [set_] makes a parameter share the cell of the snapshot it swaps
    in. So an in-place update of a parameter after the restore is an
    update of its original snapshot: the next restore keeps the updated
    value, the other parameters their former ones. The noisy snapshot is
    another cell: a call with perturbation on and resampling off still
    gives every parameter the noisy value of the draw, which does not see
    the update. *)
Theorem update_after_restore (w : World) (sw : bool * bool) (n : string)
    (v : tensor) :
  wf w -> conforms -> draws_noise w sw = true -> is_param w n ->
  exists w1 w2 w3 w4 w5,
    pre_evaluate sw w = Ok tt w1
    /\ perturb_post_hook w1 = Ok tt w2
    /\ param_write n v w2 = Ok tt w3
    /\ live w3 n = v
    /\ perturb_post_hook w3 = Ok tt w4
    /\ live w4 n = v
    /\ (forall m, is_param w m -> m <> n -> live w4 m = live w m)
    /\ pre_evaluate (true, false) w3 = Ok tt w5
    /\ (forall m, is_param w m -> live w5 m = live w1 m).
Proof.
  intros Hwf Hconf Hdraw Hn.
  destruct (pre_evaluate_draws sw w Hwf Hconf Hdraw)
    as (org & noisy & h & k & g & Hrun1 & Hda & Hwf1 & Hapart).
  set (w1 := redrawn org noisy h k g (switched sw w)) in *.
  destruct (perturb_post_hook_cells w1 Hwf1) as (f & Hrun2 & Hwf2 & Hf).
  set (w2 := set_param_storage f w1) in *.
  destruct (da_org _ _ _ _ _ _ Hda n Hn) as (a & Ha & _ & Hval).
  assert (Hfn : f n = a) by (by apply Hf).
  set (w3 := set_storage (<[a := v]> h) w2).
  assert (Hrun3 : param_write n v w2 = Ok tt w3).
  { unfold param_write, modify. simpl. by rewrite Hfn. }
  assert (Hwf3 : wf w3) by (by apply wf_set_storage).
  destruct (perturb_post_hook_returns w3 Hwf3)
    as (w4 & Hrun4 & _ & _ & _ & _ & _ & _ & Hlive4).
  pose proof (wf_switched (true, false) w3 Hwf3) as Hwf3'.
  destruct (da_noisy _ _ _ _ _ _ Hda n Hn) as (bn & Hbn & _ & _).
  assert (Hne : noisy <> ∅).
  { intros Hempty. by rewrite Hempty, lookup_empty in Hbn. }
  exists w1, w2, w3, w4, (swapped noisy (switched (true, false) w3)).
  split; [done|]. split; [done|]. split; [done|].
  split; [unfold live; simpl; rewrite Hfn; apply fn_lookup_insert|].
  split; [done|].
  split; [rewrite (Hlive4 n a Hn Ha); simpl; apply fn_lookup_insert|].
  split; [|split].
  - intros m Hm Hmn.
    destruct (da_org _ _ _ _ _ _ Hda m Hm) as (am & Ham & _ & Hvalm).
    rewrite (Hlive4 m am Hm Ham). simpl.
    rewrite fn_lookup_insert_ne; [done|].
    intros <-. apply Hmn. apply (wf_org_separate w1 Hwf1 m n a); done.
  - rewrite pre_evaluate_unfold.
    apply perturb_pre_hook_reuse; try done.
    by apply (wf_noisy_complete _ Hwf3').
  - intros m Hm.
    destruct (da_noisy _ _ _ _ _ _ Hda m Hm) as (bm & Hbm & _ & Hvalm).
    rewrite (live_swapped _ (switched (true, false) w3) m bm Hm Hbm).
    simpl. rewrite fn_lookup_insert_ne; [by rewrite Hvalm|].
    intros <-. by apply (Hapart n m a).
Qed.

(** X17: an in-place update of a parameter made while the noisy values are
    in, after a draw and before any restore, is lost: the parameter holds
    the updated value until the post hook runs, which gives every
    parameter the value it held before the draw. *)
Theorem update_before_restore (w : World) (sw : bool * bool) (n : string)
    (v : tensor) :
  wf w -> conforms -> draws_noise w sw = true -> is_param w n ->
  exists w1 w2 w3,
    pre_evaluate sw w = Ok tt w1
    /\ param_write n v w1 = Ok tt w2
    /\ live w2 n = v
    /\ perturb_post_hook w2 = Ok tt w3
    /\ (forall m, is_param w m -> live w3 m = live w m).
Proof.
  intros Hwf Hconf Hdraw Hn.
  destruct (pre_evaluate_draws sw w Hwf Hconf Hdraw)
    as (org & noisy & h & k & g & Hrun1 & Hda & Hwf1 & _).
  set (w1 := redrawn org noisy h k g (switched sw w)) in *.
  set (w2 := set_storage (<[param_storage w n := v]> h) w1).
  assert (Hwf2 : wf w2) by (by apply wf_set_storage).
  assert (Hold : holds_original (live w) w2).
  { intros m Hm.
    destruct (da_org _ _ _ _ _ _ Hda m Hm) as (a & Ha & [Hlow _] & Hval).
    unfold snapshot. simpl. rewrite Ha. simpl. f_equal.
    rewrite fn_lookup_insert_ne; [done|].
    pose proof (wf_param_allocated w Hwf n Hn). simpl in Hlow. lia. }
  destruct (perturb_post_hook_original (live w) w2 Hwf2 Hold)
    as (w3 & Hrun3 & Hlive3).
  exists w1, w2, w3. split; [done|]. split; [done|].
  split; [unfold live; simpl; apply fn_lookup_insert|].
  split; [done|]. exact Hlive3.
Qed.

End Updates.

(** ** The exceptions of the pre hook *)

Section Errors.
Context `{PerturbArgs}.

Lemma draw_noise_loop_raise (ps : list (string * bool)) (w w' : World)
    (e : exn) :
  for_each ps (draw_noise perturb_gen) w = Raise e w' -> e = RuntimeError.
Proof.
  revert w. induction ps as [|[n []] ps IH]; intros w Hrun.
  - discriminate.
  - simpl in Hrun. unfold bind in Hrun. rewrite draw_noise_unfold in Hrun.
    destruct (tensor_iadd _ _) as [r|].
    + by eapply IH.
    + by injection Hrun as <- _.
  - simpl in Hrun. unfold bind in Hrun. rewrite draw_noise_skip in Hrun.
    by eapply IH.
Qed.

(** X7: the pre hook raises nothing but [RuntimeError], for a sample the
    in-place addition rejects, in the branch that draws noise, and
    [KeyError], for a tensor parameter that the snapshot to swap in lacks.
    In a well-formed world it raises nothing but [RuntimeError]. *)
Theorem perturb_pre_hook_errors (w : World) :
  (forall e w',
     perturb_pre_hook w = Raise e w' ->
     (e = RuntimeError /\ perturb_switch w = true
      /\ (noisy_params w = ∅ \/ reset_switch w = true))
     \/ (exists n, e = KeyError n /\ is_param w n
           /\ ((perturb_switch w = true /\ reset_switch w = false
                /\ noisy_params w !! n = None)
               \/ (perturb_switch w = false /\ org_params w !! n = None))))
  /\ (wf w ->
      forall e w', perturb_pre_hook w = Raise e w' -> e = RuntimeError).
Proof.
  split.
  - intros e w' Hrun.
    unfold perturb_pre_hook, perturb_pre_hook_with, bind, gets in Hrun.
    destruct (perturb_switch w) eqn:Hp; simpl in Hrun.
    + destruct (decide (noisy_params w = ∅)) as [Hempty|Hne].
      * rewrite (nonempty_false _ Hempty) in Hrun. simpl in Hrun.
        apply draw_noise_loop_raise in Hrun. left. auto.
      * rewrite (nonempty_true _ Hne) in Hrun.
        destruct (reset_switch w) eqn:Hr; simpl in Hrun.
        -- apply draw_noise_loop_raise in Hrun. left. auto.
        -- apply swap_in_loop_raise in Hrun as (n & -> & Hn & Hnone); [|done].
           right. exists n. split; [done|]. split; [done|]. by left.
    + rewrite Hp in Hrun. simpl in Hrun.
      destruct (nonempty (org_params w)); [|discriminate].
      apply swap_in_loop_raise in Hrun as (n & -> & Hn & Hnone); [|done].
      right. exists n. split; [done|]. split; [done|]. by right.
  - intros Hwf e w' Hrun.
    destruct (perturb_switch w) eqn:Hp.
    + destruct (decide (noisy_params w = ∅)) as [Hempty|Hne];
        [|destruct (reset_switch w) eqn:Hr].
      * rewrite perturb_pre_hook_draw in Hrun by auto.
        by eapply draw_noise_loop_raise.
      * rewrite perturb_pre_hook_draw in Hrun by auto.
        by eapply draw_noise_loop_raise.
      * rewrite perturb_pre_hook_reuse in Hrun;
          auto using wf_noisy_complete. discriminate.
    + destruct (decide (org_params w = ∅)) as [Hempty|Hne].
      * rewrite perturb_pre_hook_noop in Hrun by done. discriminate.
      * rewrite perturb_pre_hook_restore in Hrun;
          auto using wf_org_complete. discriminate.
Qed.

(** X18: when the pre hook raises, the evaluation raises the same
    exception in the same world: the model produces no output, nothing is
    recorded, and the controller and the log are as before. *)
Theorem call_model_pre_hook_raises (w w1 : World) (x : input) (e : exn)
    (i j : nat) :
  forward_pre_hooks w = [(i, PerturbPreHook)] ->
  forward_hooks w = [(j, PerturbAdjustHook)] ->
  perturb_pre_hook w = Raise e w1 ->
  call_model x w = Raise e w1
  /\ tmp_action w1 = tmp_action w
  /\ param_noise_spec w1 = param_noise_spec w
  /\ logger w1 = logger w.
Proof.
  intros Hfph Hfh Hrun.
  rewrite (call_model_session w x i j Hfph Hfh), Hrun.
  split; [done|].
  pose proof (perturb_pre_hook_perturbed w) as Hframe.
  rewrite Hrun in Hframe. simpl in Hframe.
  by destruct Hframe as (f & o & n & h & k & g & ->).
Qed.

End Errors.

(** ** The order of the draws *)

Section Plan.
Context `{PerturbArgs}.

Lemma noise_plan_cons_tensor (g : rng) (std : float) (vals : string -> tensor)
    (n : string) (ps : list (string * bool)) :
  noise_plan g std vals ((n, true) :: ps) =
    (let s := sample g std (tensor_shape (vals n)) (tensor_device (vals n)) in
     let p := noise_plan s.2 std vals ps in
     ((n, s.1) :: p.1, p.2)).
Proof.
  simpl. destruct (sample _ _ _ _) as [x g']. simpl.
  by destruct (noise_plan _ _ _ _) as [l g''].
Qed.

Lemma noise_plan_ext (g : rng) (std : float) (vals vals' : string -> tensor)
    (ps : list (string * bool)) :
  (forall n, (n, true) ∈ ps -> vals n = vals' n) ->
  noise_plan g std vals ps = noise_plan g std vals' ps.
Proof.
  revert g. induction ps as [|[n []] ps IH]; intros g Hvals; [done|..].
  - rewrite !noise_plan_cons_tensor.
    rewrite <- (Hvals n) by (apply elem_of_cons; by left).
    simpl. rewrite IH; [done|].
    intros m Hm. apply Hvals, elem_of_cons. by right.
  - simpl. apply IH. intros m Hm. apply Hvals, elem_of_cons. by right.
Qed.

Lemma noise_plan_names (g : rng) (std : float) (vals : string -> tensor)
    (ps : list (string * bool)) (n : string) (x : tensor) :
  (n, x) ∈ (noise_plan g std vals ps).1 -> (n, true) ∈ ps.
Proof.
  revert g. induction ps as [|[m []] ps IH]; intros g Hin.
  - by apply elem_of_nil in Hin.
  - rewrite noise_plan_cons_tensor in Hin. simpl in Hin.
    apply elem_of_cons in Hin as [[= -> _]|Hin].
    + apply elem_of_cons. by left.
    + apply elem_of_cons. right. by eapply IH.
  - simpl in Hin. apply elem_of_cons. right. by eapply IH.
Qed.

Lemma noise_plan_complete (g : rng) (std : float) (vals : string -> tensor)
    (ps : list (string * bool)) (n : string) :
  (n, true) ∈ ps -> exists x, (n, x) ∈ (noise_plan g std vals ps).1.
Proof.
  revert g. induction ps as [|[m []] ps IH]; intros g Hin.
  - by apply elem_of_nil in Hin.
  - rewrite noise_plan_cons_tensor. simpl.
    apply elem_of_cons in Hin as [[= ->]|Hin].
    + eexists. apply elem_of_cons. by left.
    + edestruct IH as [x Hx]; [exact Hin|].
      exists x. apply elem_of_cons. right. exact Hx.
  - simpl. apply elem_of_cons in Hin as [[=]|Hin]. by apply IH.
Qed.

Lemma draw_noise_loop_plan (ps : list (string * bool)) (w w' : World) :
  NoDup ps.*1 ->
  (forall n, (n, true) ∈ ps -> param_storage w n < next_storage w) ->
  (forall n m, (n, true) ∈ ps -> (m, true) ∈ ps ->
     param_storage w n = param_storage w m -> n = m) ->
  for_each ps (draw_noise perturb_gen) w = Ok tt w' ->
  rng_state w'
  = (noise_plan (rng_state w) (get_dev (param_noise_spec w)) (live w) ps).2
  /\ forall n x,
       (n, x) ∈ (noise_plan (rng_state w) (get_dev (param_noise_spec w))
                   (live w) ps).1 ->
       tensor_iadd (live w n) x = Some (live w' n).
Proof.
  revert w. induction ps as [|[n []] ps IH]; intros w Hnodup Hbelow Hsep Hrun.
  - injection Hrun as <-. split; [done|].
    intros n x Hin. by apply elem_of_nil in Hin.
  - simpl in Hrun. unfold bind in Hrun. rewrite draw_noise_unfold in Hrun.
    destruct (tensor_iadd _ _) as [r|] eqn:Hr; [|discriminate].
    set (g1 := (sample_for w (live w n)).2) in *.
    set (w1 := drawn n r g1 w) in *.
    apply list.NoDup_cons in Hnodup as [Hfresh Hnodup].
    assert (Htail : forall m, (m, true) ∈ ps -> (m, true) ∈ (n, true) :: ps)
      by (intros m Hm; apply elem_of_cons; by right).
    assert (Hn : (n, true) ∈ (n, true) :: ps) by (apply elem_of_cons; by left).
    assert (Hother : forall m, (m, true) ∈ ps ->
              param_storage w m <> param_storage w n).
    { intros m Hm Heq. apply Hsep in Heq; [|by apply Htail|done].
      subst m. apply Hfresh. by eapply elem_of_names. }
    assert (Hlive1 : forall m, (m, true) ∈ ps -> live w1 m = live w m).
    { intros m Hm. unfold live.
      apply drawn_storage_old; [by apply Hbelow, Htail|by apply Hother]. }
    assert (Hbelow1 : forall m, (m, true) ∈ ps ->
              param_storage w1 m < next_storage w1).
    { intros m Hm. simpl. specialize (Hbelow m (Htail m Hm)). lia. }
    assert (Hsep1 : forall m m', (m, true) ∈ ps -> (m', true) ∈ ps ->
              param_storage w1 m = param_storage w1 m' -> m = m').
    { intros m m' Hm Hm'. simpl. apply Hsep; by apply Htail. }
    destruct (IH w1 Hnodup Hbelow1 Hsep1 Hrun) as [Hrng Hsum].
    destruct (draw_noise_loop_spec ps w1 w' Hnodup Hbelow1 Hsep1 Hrun)
      as (org & noisy & h & k & g & Hw' & Hda).
    rewrite noise_plan_cons_tensor. simpl.
    change (rng_state w1) with g1 in Hrng, Hsum.
    change (get_dev (param_noise_spec w1))
      with (get_dev (param_noise_spec w)) in Hrng, Hsum.
    rewrite (noise_plan_ext g1 _ (live w1) (live w) ps Hlive1) in Hrng, Hsum.
    split; [exact Hrng|].
    intros m x [[= -> ->]|Hin]%elem_of_cons.
    + unfold sample_for in Hr. rewrite Hr. f_equal.
      rewrite Hw'. unfold live. simpl.
      rewrite (da_frame _ _ _ _ _ _ Hda).
      * symmetry. apply drawn_storage_param. by apply Hbelow.
      * simpl. specialize (Hbelow n Hn). lia.
      * intros m' Hm'. simpl. by apply Hother.
    + rewrite <- (Hlive1 m) by (by eapply noise_plan_names).
      by apply Hsum.
  - simpl in Hrun. unfold bind in Hrun. rewrite draw_noise_skip in Hrun.
    apply list.NoDup_cons in Hnodup as [_ Hnodup].
    simpl. apply IH; try done.
    + intros m Hm. apply Hbelow, elem_of_cons. by right.
    + intros m m' Hm Hm'. apply Hsep; apply elem_of_cons; by right.
Qed.

(** X19: the branch that draws noise draws one sample for each tensor
    parameter, in the order of [named_parameters], each for the shape and
    the device of its parameter and the current standard deviation, the
    random source going from one draw to the next; when the hook returns,
    every tensor parameter holds the sum of the value it had and of its
    sample, and the random source is the one after the last draw. *)
Theorem perturb_pre_hook_draws_in_order (w w' : World) :
  wf w ->
  perturb_switch w = true ->
  noisy_params w = ∅ \/ reset_switch w = true ->
  perturb_pre_hook w = Ok tt w' ->
  rng_state w'
  = (noise_plan (rng_state w) (get_dev (param_noise_spec w)) (live w)
       (named_parameters w)).2
  /\ (forall n x,
        (n, x) ∈ (noise_plan (rng_state w) (get_dev (param_noise_spec w))
                    (live w) (named_parameters w)).1 ->
        tensor_iadd (live w n) x = Some (live w' n))
  /\ (forall n, is_param w n ->
        exists x,
          (n, x) ∈ (noise_plan (rng_state w) (get_dev (param_noise_spec w))
                      (live w) (named_parameters w)).1).
Proof.
  intros Hwf Hp Hbranch Hrun.
  rewrite (perturb_pre_hook_draw w Hp Hbranch) in Hrun.
  destruct Hwf.
  apply draw_noise_loop_plan in Hrun as [Hrng Hsum]; try done.
  split; [exact Hrng|]. split; [exact Hsum|].
  intros n Hn. by apply noise_plan_complete.
Qed.

End Plan.

(** ** The dense model: concrete runs *)

Module DenseRuns.
Import Dense.

Lemma dense_conforms : @conforms dense_torch dense_args.
Proof.
  intros g std v. unfold sample. simpl. unfold dense_iadd. simpl.
  rewrite decide_True by done. by eexists.
Qed.

Lemma is_param_make_model {A : PerturbArgs} (g : rng) (n : string) :
  is_param (make_model g) n -> n = "bias" \/ n = "weight".
Proof.
  unfold is_param. simpl. rewrite !elem_of_cons, elem_of_nil.
  intros [Heq|[Heq|[]]]; injection Heq; auto.
Qed.

Lemma wf_make_model {A : PerturbArgs} (g : rng) : wf (make_model g).
Proof.
  split; simpl.
  - apply (bool_decide_unpack _). by vm_compute.
  - intros n [-> | ->]%is_param_make_model; vm_compute; lia.
  - intros n m [-> | ->]%is_param_make_model [-> | ->]%is_param_make_model;
      vm_compute; done.
  - by left.
  - intros n a Ha. by rewrite lookup_empty in Ha.
  - intros n m a Ha. by rewrite lookup_empty in Ha.
  - intros n a Ha. by rewrite lookup_empty in Ha.
  - intros n m a Ha. by rewrite lookup_empty in Ha.
Qed.

Lemma wf_session0 : wf session0.
Proof. apply (wf_session 0.5%float model0), wf_make_model. Qed.

Lemma wf_faulty_session0 : wf faulty_session0.
Proof. apply (wf_session 0.5%float faulty_model0), wf_make_model. Qed.

(** The world after a call of [pre_evaluate] is well-formed. *)
Lemma wf_after_pre_evaluate (sw : bool * bool) (w : World) :
  wf w -> wf (final (pre_evaluate sw w)).
Proof.
  intros Hwf.
  destruct (pre_evaluate_returns sw w Hwf dense_conforms) as (w' & -> & Hwf' & _).
  done.
Qed.

Lemma wf_cached0 : wf cached0.
Proof. apply wf_after_pre_evaluate, wf_session0. Qed.

(** C1 fails as stated: after two calls of [pre_evaluate] that both draw
    noise, the post hook returns and gives the bias the value it had before
    the second call, the sum of its first value and of the first sample,
    and not the value [1, 2, 3] it had before the first call. *)
Lemma post_evaluate_after_two_draws :
  raises two_draws = false
  /\ is_param session0 "bias"
  /\ live session0 "bias" = bias0
  /\ live (final two_draws) "bias"
     = mkDense [3] "cpu"
         [(1 + 1 * 0.1)%float; (2 + 1 * 0.1)%float; (3 + 1 * 0.1)%float]
  /\ live (final two_draws) "bias" <> live session0 "bias".
Proof.
  split; [by vm_compute|].
  split; [unfold is_param; simpl; apply elem_of_cons; by left|].
  split; [by vm_compute|].
  split; [by vm_compute|].
  intros E. apply (f_equal starts_with_one) in E. vm_compute in E. discriminate.
Qed.

Lemma post_evaluate_restores_witness :
  exists w',
    (for_each [(false, false); (true, false); (true, false); (false, false)]
       pre_evaluate ;; perturb_post_hook) session0 = Ok tt w'
    /\ live w' "bias" = bias0 /\ live w' "weight" = weight0.
Proof.
  destruct (proj2 (post_evaluate_restores session0 wf_session0 dense_conforms)
              [(false, false); (true, false); (true, false); (false, false)])
    as (w' & Hrun & Hlive).
  - reflexivity.
  - repeat constructor.
  - exists w'. split; [exact Hrun|]. split.
    + apply (Hlive "bias"). unfold is_param. simpl. apply elem_of_cons. by left.
    + apply (Hlive "weight"). unfold is_param. simpl.
      apply elem_of_cons. right. apply elem_of_cons. by left.
Defined.

(** C2 fails as stated: the post hook is on no registry of the model, and
    after an evaluation with perturbation on the original snapshot of the
    bias exists and holds [1, 2, 3] while the bias still holds its noisy
    value. *)
Lemma evaluation_leaves_noise :
  forward_pre_hooks session0 = [(1, PerturbPreHook)]
  /\ forward_hooks session0 = [(0, PerturbAdjustHook)]
  /\ raises evaluation0 = false
  /\ snapshot (final evaluation0) (org_params (final evaluation0)) "bias"
     = Some bias0
  /\ live (final evaluation0) "bias"
     = mkDense [3] "cpu"
         [(1 + 1 * 0.1)%float; (2 + 1 * 0.1)%float; (3 + 1 * 0.1)%float]
  /\ live (final evaluation0) "bias" <> bias0.
Proof.
  split; [by vm_compute|].
  split; [by vm_compute|].
  split; [by vm_compute|].
  split; [by vm_compute|].
  split; [by vm_compute|].
  intros E. apply (f_equal starts_with_one) in E. vm_compute in E. discriminate.
Qed.

Lemma perturb_model_registers_witness :
  exists s output w2 w3,
    perturb_model 0.5%float model0 = Ok tt s
    /\ forward_hooks s = [(0, PerturbAdjustHook)]
    /\ call_model ones3 (switched (true, true) s) = Ok output w2
    /\ reset w2 = Ok tt w3
    /\ live w3 "bias" = bias0.
Proof.
  destruct (perturb_model_registers model0 0.5%float ones3 true
              (wf_make_model (A := dense_args) 0) dense_conforms
              eq_refl eq_refl)
    as (s & output & w2 & w3 & Hs & _ & Hhooks & _ & Hcall & _ & _ & _ & Hreset & Hlive).
  exists s, output, w2, w3.
  split; [exact Hs|]. split; [exact Hhooks|]. split; [exact Hcall|].
  split; [exact Hreset|].
  apply (Hlive "bias"). unfold is_param. simpl. apply elem_of_cons. by left.
Defined.

Lemma is_param_bias (w : World) :
  named_parameters w = [("bias", true); ("weight", true)] -> is_param w "bias".
Proof. intros Hps. unfold is_param. rewrite Hps. apply elem_of_cons. by left. Qed.

Lemma is_param_weight (w : World) :
  named_parameters w = [("bias", true); ("weight", true)] -> is_param w "weight".
Proof.
  intros Hps. unfold is_param. rewrite Hps.
  apply elem_of_cons. right. apply elem_of_cons. by left.
Qed.

Lemma pre_evaluate_reuses_cache_witness :
  exists w1 w2,
    perturb_pre_hook perturbing0 = Ok tt w1
    /\ perturb_pre_hook w1 = Ok tt w2
    /\ live w2 "bias" = live w1 "bias"
    /\ live w2 "weight" = live w1 "weight".
Proof.
  destruct (proj2 (pre_evaluate_reuses_cache perturbing0
                     (wf_switched (true, false) session0 wf_session0)
                     eq_refl eq_refl) dense_conforms)
    as (w1 & w2 & Hrun1 & Hrun2 & Hlive).
  exists w1, w2. split; [exact Hrun1|]. split; [exact Hrun2|]. split.
  - apply Hlive. by apply is_param_bias.
  - apply Hlive. by apply is_param_weight.
Defined.

Lemma pre_evaluate_disabled_witness :
  exists w',
    perturb_pre_hook clean0 = Ok tt w'
    /\ live w' "bias" = bias0
    /\ org_params w' = org_params clean0
    /\ noisy_params w' = noisy_params clean0.
Proof.
  destruct (proj1 (pre_evaluate_disabled clean0 eq_refl))
    as (w' & Hrun & Hlive & Horg & Hnoisy & _).
  - apply (wf_switched (false, false) cached0 wf_cached0).
  - apply (bool_decide_unpack _). by vm_compute.
  - exists w'. split; [exact Hrun|]. split; [|by split].
    specialize (Hlive "bias" (is_param_bias clean0 eq_refl)).
    assert (Hs : snapshot clean0 (org_params clean0) "bias" = Some bias0)
      by (by vm_compute).
    rewrite Hs in Hlive. by injection Hlive.
Defined.

Lemma perturb_post_hook_idempotent_witness :
  exists w1 w2,
    perturb_post_hook cached0 = Ok tt w1
    /\ perturb_post_hook w1 = Ok tt w2
    /\ live w2 "bias" = live w1 "bias".
Proof.
  destruct (proj2 (perturb_post_hook_idempotent cached0 eq_refl) wf_cached0)
    as (w1 & w2 & Hrun1 & _ & Hrun2 & _ & Hlive & _).
  exists w1, w2. split; [exact Hrun1|]. split; [exact Hrun2|].
  apply Hlive. by apply is_param_bias.
Defined.

Lemma pre_evaluate_rejected_sample_witness :
  exists w2,
    perturb_pre_hook faulty_perturbing0 = Raise RuntimeError w2
    /\ live w2 "bias"
       = mkDense [3] "cpu" [(1 + 0.1)%float; (2 + 0.1)%float; (3 + 0.1)%float]
    /\ live w2 "weight" = weight0
    /\ noisy_params w2 !! "weight" = None.
Proof.
  destruct (pre_evaluate_rejected_sample faulty_perturbing0 faulty_after_bias
              [("bias", true)] [] "weight")
    as (w2 & Hrun & Hpre & Hpost & _ & Hnone).
  - apply (wf_switched (true, true) faulty_session0 wf_faulty_session0).
  - reflexivity.
  - by right.
  - reflexivity.
  - by vm_compute.
  - by vm_compute.
  - exists w2. split; [exact Hrun|]. split; [|split; [|exact Hnone]].
    + destruct (Hpre "bias") as [-> _]; [apply elem_of_cons; by left|].
      by vm_compute.
    + rewrite (Hpost "weight") by (apply elem_of_cons; by left).
      by vm_compute.
Defined.

Lemma record_output_replaces_witness :
  exists w',
    for_each [ones3; bias0] (record_output true) session0 = Ok tt w'
    /\ logger w' = []
    /\ param_noise_spec w' = param_noise_spec session0
    /\ tmp_action w' !! "with_noise" = Some bias0
    /\ tmp_action w' !! "without_noise" = None.
Proof.
  destruct (proj1 (proj2 (record_output_replaces session0 true eq_refl))
              [ones3; bias0])
    as (w' & Hrun & Hspec & Hlog & Hnone & Hlast).
  exists w'. split; [exact Hrun|]. split; [exact Hlog|]. split; [exact Hspec|].
  split; [exact Hlast|exact Hnone].
Defined.

Lemma perturb_adjust_hook_pairs_witness :
  exists spec,
    adapt (dist2 bias0 ones3) (param_noise_spec session0) = Ok tt spec
    /\ (record_output true bias0 ;; record_output false ones3) session0
       = Ok tt (adapted (dist2 bias0 ones3) spec
                  (set_perturb_switch false session0))
    /\ (record_output false ones3 ;; record_output true bias0) session0
       = Ok tt (adapted (dist2 bias0 ones3) spec
                  (set_perturb_switch true session0)).
Proof.
  apply (proj2 (proj2 (perturb_adjust_hook_pairs session0 ones3)) bias0 ones3);
    reflexivity.
Defined.

Lemma adapt_spec_witness :
  adapt 0.6%float
    (mkAdaptiveParamNoise 0.1%float 0.5%float 1.01%float 0.1%float)
  = Ok tt (mkAdaptiveParamNoise 0.1%float 0.5%float 1.01%float
             (0.1 / 1.01)%float)
  /\ adapt 0.5%float
       (mkAdaptiveParamNoise 0.1%float 0.5%float 1.01%float 0.1%float)
     = Ok tt (mkAdaptiveParamNoise 0.1%float 0.5%float 1.01%float
                (0.1 * 1.01)%float).
Proof.
  split.
  - apply (proj1 (adapt_spec
                    (mkAdaptiveParamNoise 0.1%float 0.5%float 1.01%float
                       0.1%float) 0.6%float)); reflexivity.
  - apply (proj1 (proj2 (proj2 (adapt_spec
                    (mkAdaptiveParamNoise 0.1%float 0.5%float 1.01%float
                       0.1%float) 0.5%float)))); reflexivity.
Defined.

(** After the rejected sample the weight has no noisy snapshot: the next
    call of the pre hook that reuses the cache raises [KeyError]. *)
Lemma rejected_sample_breaks_session :
  noisy_params faulty_broken0 !! "bias" = Some 4
  /\ noisy_params faulty_broken0 !! "weight" = None
  /\ exists w', perturb_pre_hook faulty_broken0 = Raise (KeyError "weight") w'.
Proof.
  split; [by vm_compute|]. split; [by vm_compute|].
  eexists. by vm_compute.
Qed.

End DenseRuns.

(** ** The dense model: further runs *)

Module DenseMore.
Import Dense DenseRuns.

Lemma in_session_session0 : in_session session0.
Proof.
  apply (in_session_session 0.5%float model0); [|done..].
  apply (wf_make_model (A := dense_args) 0).
Qed.

Lemma perturb_model_deregister_witness :
  exists w',
    (perturb_model 0.5%float ;; deregister) model0 = Ok tt w'
    /\ forward_hooks w' = [] /\ forward_pre_hooks w' = [].
Proof.
  destruct (perturb_model_deregister model0 0.5%float)
    as (w' & Hrun & Hfh & Hfph & _).
  - intros p Hp. by apply elem_of_nil in Hp.
  - intros p Hp. by apply elem_of_nil in Hp.
  - exists w'. split; [exact Hrun|]. split; [exact Hfh|exact Hfph].
Defined.

Lemma deregistered_model_untouched_witness :
  exists w',
    (perturb_model 0.5%float ;; deregister) model0 = Ok tt w'
    /\ call_model ones3 (switched (true, true) w')
       = Ok (forward (live model0) ones3) (switched (true, true) w').
Proof.
  destruct (deregistered_model_untouched model0 0.5%float eq_refl eq_refl)
    as (w' & Hrun & Hcall).
  exists w'. split; [exact Hrun|]. apply Hcall.
Defined.

Lemma deregister_keeps_noise_witness :
  exists output w2 w3 w4,
    call_model ones3 (switched (true, true) (session 0.5%float model0))
    = Ok output w2
    /\ deregister w2 = Ok tt w3
    /\ call_model ones3 (switched (false, false) w3)
       = Ok (forward (live w2) ones3) (switched (false, false) w3)
    /\ reset w3 = Ok tt w4
    /\ live w4 "bias" = bias0.
Proof.
  destruct (deregister_keeps_noise model0 0.5%float ones3 true
              (wf_make_model (A := dense_args) 0) dense_conforms
              eq_refl eq_refl)
    as (output & w2 & w3 & w4 & Hrun & _ & Hder & Hcall & Hreset & Hlive).
  exists output, w2, w3, w4.
  split; [exact Hrun|]. split; [exact Hder|]. split; [apply Hcall|].
  split; [exact Hreset|].
  apply (Hlive "bias"). by apply is_param_bias.
Defined.

Lemma evaluate_noisy_then_clean_witness :
  exists o1 w1 o2 w2 spec,
    call_model ones3 (switched (true, true) (session 0.5%float model0))
    = Ok o1 w1
    /\ call_model ones3 (switched (false, true) w1) = Ok o2 w2
    /\ live w2 "bias" = bias0
    /\ param_noise_spec w2 = spec
    /\ adapt (distance_func o1 o2)
         (mkAdaptiveParamNoise default_initial_stddev 0.5%float
            default_adoption_coefficient default_initial_stddev)
       = Ok tt spec
    /\ tmp_action w2 = ∅.
Proof.
  destruct (evaluate_noisy_then_clean model0 0.5%float ones3 ones3 true true
              (wf_make_model (A := dense_args) 0) dense_conforms
              eq_refl eq_refl)
    as (o1 & w1 & o2 & w2 & spec & Hrun1 & Hrun2 & _ & Hlive & Hspec & Hctl
        & Htmp & _).
  exists o1, w1, o2, w2, spec.
  split; [exact Hrun1|]. split; [exact Hrun2|].
  split; [apply (Hlive "bias"); by apply is_param_bias|].
  split; [exact Hctl|]. split; [exact Hspec|exact Htmp].
Defined.

Lemma session_never_raises_witness :
  exists w',
    for_each
      [Evaluate (true, true) ones3; Evaluate (false, false) ones3; Reset;
       Evaluate (true, false) bias0; Reset; Reset]
      run_action session0 = Ok tt w'
    /\ in_session w'.
Proof.
  apply (session_never_raises session0 _ in_session_session0 dense_conforms).
Defined.

Lemma perturb_post_hook_key_error_witness :
  perturb_post_hook faulty_first0
  = Raise (KeyError "weight")
      (set_param_storage
         (redirect (org_params faulty_first0) [("bias", true)]
            (param_storage faulty_first0))
         faulty_first0).
Proof.
  apply (proj2 (perturb_post_hook_key_error faulty_first0)
           [("bias", true)] "weight" []).
  - apply (bool_decide_unpack _). by vm_compute.
  - reflexivity.
  - intros m Hm. apply list_elem_of_singleton in Hm. injection Hm as ->.
    exists 3. by vm_compute.
  - by vm_compute.
Defined.

Lemma adapt_nan_witness :
  adapt PrimFloat.nan
    (mkAdaptiveParamNoise 0.1%float 0.5%float 1.01%float 0.1%float)
  = Ok tt (mkAdaptiveParamNoise 0.1%float 0.5%float 1.01%float
             (0.1 * 1.01)%float).
Proof.
  apply (adapt_nan
           (mkAdaptiveParamNoise 0.1%float 0.5%float 1.01%float 0.1%float)
           PrimFloat.nan).
  left. reflexivity.
Defined.

Lemma cache_survives_restore_witness :
  exists w1 w2 w3,
    pre_evaluate (true, true) session0 = Ok tt w1
    /\ pre_evaluate (false, true) w1 = Ok tt w2
    /\ live w2 "bias" = bias0
    /\ pre_evaluate (true, false) w2 = Ok tt w3
    /\ live w3 "bias" = live w1 "bias".
Proof.
  destruct (cache_survives_restore session0 (true, true) true
              wf_session0 dense_conforms eq_refl)
    as (w1 & w2 & w3 & Hrun1 & Hrun2 & Hlive2 & Hrun3 & Hlive3).
  exists w1, w2, w3.
  split; [exact Hrun1|]. split; [exact Hrun2|].
  split; [apply (Hlive2 "bias"); by apply is_param_bias|].
  split; [exact Hrun3|].
  apply (Hlive3 "bias"). by apply is_param_bias.
Defined.

Lemma perturb_pre_hook_off_witness :
  perturb_pre_hook clean0 = perturb_post_hook clean0.
Proof. apply (perturb_pre_hook_off clean0). reflexivity. Defined.

Lemma update_after_restore_witness :
  exists w1 w2 w3 w4 w5,
    pre_evaluate (true, true) session0 = Ok tt w1
    /\ perturb_post_hook w1 = Ok tt w2
    /\ param_write "bias" ones3 w2 = Ok tt w3
    /\ perturb_post_hook w3 = Ok tt w4
    /\ live w4 "bias" = ones3
    /\ live w4 "weight" = weight0
    /\ pre_evaluate (true, false) w3 = Ok tt w5
    /\ live w5 "bias" = live w1 "bias".
Proof.
  destruct (update_after_restore session0 (true, true) "bias" ones3
              wf_session0 dense_conforms eq_refl
              (is_param_bias session0 eq_refl))
    as (w1 & w2 & w3 & w4 & w5 & Hrun1 & Hrun2 & Hrun3 & _ & Hrun4 & Hn
        & Hothers & Hrun5 & Hnoisy).
  exists w1, w2, w3, w4, w5.
  split; [exact Hrun1|]. split; [exact Hrun2|]. split; [exact Hrun3|].
  split; [exact Hrun4|]. split; [exact Hn|].
  split; [apply (Hothers "weight"); [by apply is_param_weight|done]|].
  split; [exact Hrun5|].
  apply (Hnoisy "bias"). by apply is_param_bias.
Defined.

Lemma update_before_restore_witness :
  exists w1 w2 w3,
    pre_evaluate (true, true) session0 = Ok tt w1
    /\ param_write "bias" ones3 w1 = Ok tt w2
    /\ live w2 "bias" = ones3
    /\ perturb_post_hook w2 = Ok tt w3
    /\ live w3 "bias" = bias0.
Proof.
  destruct (update_before_restore session0 (true, true) "bias" ones3
              wf_session0 dense_conforms eq_refl
              (is_param_bias session0 eq_refl))
    as (w1 & w2 & w3 & Hrun1 & Hrun2 & Hn & Hrun3 & Hlive).
  exists w1, w2, w3.
  split; [exact Hrun1|]. split; [exact Hrun2|]. split; [exact Hn|].
  split; [exact Hrun3|].
  apply (Hlive "bias"). by apply is_param_bias.
Defined.

Lemma call_model_pre_hook_raises_witness :
  exists w1 : @World _ faulty_args,
    @call_model _ faulty_args ones3 faulty_rejecting0 = Raise RuntimeError w1
    /\ tmp_action w1 = ∅
    /\ logger w1 = [].
Proof.
  destruct (@call_model_pre_hook_raises _ faulty_args faulty_rejecting0
              (final (perturb_pre_hook faulty_rejecting0)) ones3
              RuntimeError 1 0)
    as (Hcall & Htmp & _ & Hlog).
  - reflexivity.
  - reflexivity.
  - by vm_compute.
  - eexists. split; [exact Hcall|]. split; [exact Htmp|exact Hlog].
Defined.

Lemma perturb_pre_hook_draws_in_order_witness :
  exists w',
    perturb_pre_hook perturbing0 = Ok tt w'
    /\ rng_state w' = 2
    /\ (exists x, tensor_iadd (live perturbing0 "bias") x
                  = Some (live w' "bias"))
    /\ (exists x, tensor_iadd (live perturbing0 "weight") x
                  = Some (live w' "weight")).
Proof.
  destruct (perturb_pre_hook_returns perturbing0
              (wf_switched (true, false) session0 wf_session0)
              dense_conforms)
    as (w' & Hrun & _).
  destruct (perturb_pre_hook_draws_in_order perturbing0 w'
              (wf_switched (true, false) session0 wf_session0)
              eq_refl (or_introl eq_refl) Hrun)
    as (Hrng & Hsum & Hall).
  exists w'. split; [exact Hrun|]. split; [rewrite Hrng; by vm_compute|].
  split.
  - destruct (Hall "bias") as [x Hx]; [by apply is_param_bias|].
    exists x. exact (Hsum _ _ Hx).
  - destruct (Hall "weight") as [x Hx]; [by apply is_param_weight|].
    exists x. exact (Hsum _ _ Hx).
Defined.

End DenseMore.
